(** * Verification of the autocomplete trie (src/trie.py)

    The Python class [Trie] is embedded as pure functions over an
    immutable tree.  Each [TrieNode] is owned by exactly one parent, so a
    mutation through a reference is the same as rebuilding the spine above
    the mutated node.

    - A Python [dict] keeps its keys unique and iterates in insertion
      order.  [children] is an association list in that order; the
      predicate [wf_node] states key uniqueness.
    - Symbols are characters; a word is the list of its characters.  Only
      equality and the code point order of characters are used.  The
      empty string [''] that [_trace] stores beside the root is [None] in
      the model, a one-character string [ch] is [Some ch].
    - Python integers are unbounded: the counters are in [Z].
    - Frequencies are only stored, compared and negated by the code, so a
      finite frequency is modelled by an integer of [Z].
*)

From Stdlib Require Import Ascii String.
From Stdlib Require Import List ZArith Lia Bool Permutation Sorted.
Import ListNotations.
Local Open Scope Z_scope.

Set Implicit Arguments.

Definition symbol := ascii.
Definition word := list symbol.

(** ** Dictionaries in insertion order *)

Module Dict.
Section Ops.
Variable V : Type.

Definition t := list (symbol * V).

(** [d[ch]] (first binding; the only one in a well-formed dict) *)
Fixpoint get (ch : symbol) (d : t) : option V :=
  match d with
  | [] => None
  | (c, v) :: rest => if Ascii.eqb ch c then Some v else get ch rest
  end.

(** [ch in d] *)
Definition mem (ch : symbol) (d : t) : bool :=
  match get ch d with Some _ => true | None => false end.

(** [d[ch] = v]: an existing key keeps its position, a new key goes last *)
Fixpoint set (ch : symbol) (v : V) (d : t) : t :=
  match d with
  | [] => [(ch, v)]
  | (c, x) :: rest =>
      if Ascii.eqb ch c then (c, v) :: rest else (c, x) :: set ch v rest
  end.

(** [del d[ch]] *)
Fixpoint del (ch : symbol) (d : t) : t :=
  match d with
  | [] => []
  | (c, x) :: rest =>
      if Ascii.eqb ch c then rest else (c, x) :: del ch rest
  end.

Definition keys (d : t) : list symbol := map fst d.
End Ops.
End Dict.

(** ** Nodes and the index *)

#[warnings="-register-all"]
Inductive TrieNode : Type :=
  mkNode { children : list (symbol * TrieNode); is_word : bool; freq : Z }.

(** [TrieNode()] *)
Definition new_node : TrieNode := mkNode [] false 0.

Record Trie : Type :=
  mkTrie { root : TrieNode; _total_words : Z; _total_nodes : Z }.

(** [Trie.__init__] *)
Definition Trie_init : Trie := mkTrie new_node 0 1.

Definition set_children (n : TrieNode) (cs : list (symbol * TrieNode)) : TrieNode :=
  mkNode cs (is_word n) (freq n).

(** ** [_trace] *)

Definition path_t := list (TrieNode * option symbol).

(** The loop of [_trace], started at [node] with [path] accumulated so far. *)
Fixpoint trace_loop (node : TrieNode) (path : path_t) (text : word)
  : option TrieNode * path_t :=
  match text with
  | [] => (Some node, path)
  | ch :: rest =>
      match Dict.get ch (children node) with
      | None => (None, [])
      | Some nxt => trace_loop nxt (path ++ [(nxt, Some ch)]) rest
      end
  end.

Definition _trace (t : Trie) (text : word) : option TrieNode * path_t :=
  trace_loop (root t) [(root t, None)] text.

(** ** [insert] *)

(** The walk of [insert] below [node]: returns the rebuilt node, the number
    of nodes created and the number of words added. *)
Fixpoint insert_walk (node : TrieNode) (w : word) (f : Z) : TrieNode * Z * Z :=
  match w with
  | [] =>
      (mkNode (children node) true f, 0, if is_word node then 0 else 1)
  | ch :: rest =>
      let '(child, made) :=
        match Dict.get ch (children node) with
        | Some c => (c, 0)
        | None => (new_node, 1)
        end in
      let '(child', made', added) := insert_walk child rest f in
      (set_children node (Dict.set ch child' (children node)), made + made', added)
  end.

Definition insert (t : Trie) (w : word) (f : Z) : Trie :=
  let '(r, made, added) := insert_walk (root t) w f in
  mkTrie r (_total_words t + added) (_total_nodes t + made).

(** ** [contains] *)

Definition contains (t : Trie) (w : word) : bool :=
  match fst (_trace t w) with
  | Some node => is_word node
  | None => false
  end.

(** ** [remove] *)

(** [not child.children and not child.is_word] *)
Definition is_dead (n : TrieNode) : bool :=
  match children n with
  | [] => negb (is_word n)
  | _ :: _ => false
  end.

(** Dictionary operations at a symbol read from a path entry; the root's
    entry holds [''], which is never a key. *)
Definition mem_sym (ch : option symbol) (d : list (symbol * TrieNode)) : bool :=
  match ch with Some c => Dict.mem c d | None => false end.

Definition del_sym (ch : option symbol) (d : list (symbol * TrieNode))
  : list (symbol * TrieNode) :=
  match ch with Some c => Dict.del c d | None => d end.

Definition put_sym (ch : option symbol) (v : TrieNode) (d : list (symbol * TrieNode))
  : list (symbol * TrieNode) :=
  match ch with Some c => Dict.set c v d | None => d end.

(** The pruning loop [for i in range(len(path) - 1, 0, -1)].

    [above] is [path[0 .. i-1]] reversed, so its head is [path[i-1]], from
    which the source reads [parent, ch]; [child] is the node [path[i]] as it
    is now, and [key] the symbol under which its parent holds it.  The
    parent recorded in the path is the same object as before, so it sees
    the current [child] under [key].  [pruning] is false once the loop has
    reached [break]; the remaining entries only rebuild the spine. *)
Fixpoint prune_loop (above : path_t) (child : TrieNode) (key : option symbol)
    (pruning : bool) (nodes : Z) : TrieNode * Z :=
  match above with
  | [] => (child, nodes)
  | (parent0, ch) :: up =>
      let parent := set_children parent0 (put_sym key child (children parent0)) in
      if pruning && is_dead child then
        if mem_sym ch (children parent) then
          prune_loop up (set_children parent (del_sym ch (children parent)))
                     ch true (nodes - 1)
        else prune_loop up parent ch true nodes
      else prune_loop up parent ch false nodes
  end.

Definition remove (t : Trie) (w : word) : bool * Trie :=
  match _trace t w with
  | (Some node, path) =>
      if is_word node then
        match rev path with
        | (_, key) :: above =>
            let '(r, nodes) :=
              prune_loop above (mkNode (children node) false 0) key true
                         (_total_nodes t) in
            (true, mkTrie r (_total_words t - 1) nodes)
        | [] => (false, t)
        end
      else (false, t)
  | (None, _) => (false, t)
  end.

(** ** [complete] *)

(** A heap entry [(freq, word)]. *)
Definition item := (Z * word)%type.

(** Python compares strings by code point, position by position. *)
Fixpoint word_compare (a b : word) : comparison :=
  match a, b with
  | [], [] => Eq
  | [], _ :: _ => Lt
  | _ :: _, [] => Gt
  | x :: a', y :: b' =>
      match Ascii.compare x y with
      | Eq => word_compare a' b'
      | c => c
      end
  end.

Definition word_ltb (a b : word) : bool :=
  match word_compare a b with Lt => true | _ => false end.

(** Tuple comparison [a < b] on [(freq, word)]. *)
Definition item_ltb (a b : item) : bool :=
  (fst a <? fst b) || ((fst a =? fst b) && word_ltb (snd a) (snd b)).

(** The module [heapq].  [complete] reads its heap in two ways only: through
    [heap[0]], which heapq keeps a least entry, and through [sorted] under
    a key that orders entries totally, so the array layout inside the heap
    is not observable.  The model keeps the entries in ascending order. *)
Module heapq.
Fixpoint heappush (heap : list item) (it : item) : list item :=
  match heap with
  | [] => [it]
  | h :: rest =>
      if item_ltb it h then it :: h :: rest else h :: heappush rest it
  end.

(** [if heap and heap[0] < item]: the least entry is replaced. *)
Definition heappushpop (heap : list item) (it : item) : list item :=
  match heap with
  | [] => heap
  | h :: rest => if item_ltb h it then heappush rest it else heap
  end.
End heapq.

(** [sorted(keys)] on symbols *)
Fixpoint sym_insert (x : symbol) (l : list symbol) : list symbol :=
  match l with
  | [] => [x]
  | y :: r =>
      match Ascii.compare y x with
      | Lt => y :: sym_insert x r
      | _ => x :: y :: r
      end
  end.

Definition sorted_syms (l : list symbol) : list symbol :=
  fold_right sym_insert [] l.

(** The sort key [lambda x: (-x[0], x[1])] *)
Definition rank_key (x : item) : item := (- fst x, snd x).

(** [sorted(heap, key=...)]; Python's sort is stable. *)
Fixpoint rank_insert (x : item) (l : list item) : list item :=
  match l with
  | [] => [x]
  | y :: r =>
      if item_ltb (rank_key y) (rank_key x) then y :: rank_insert x r
      else x :: y :: r
  end.

Definition sorted_by_rank (l : list item) : list item :=
  fold_right rank_insert [] l.

(** The admission step of [dfs] for one terminal node. *)
Definition admit_item (k : Z) (heap : list item) (it : item) : list item :=
  if Z.of_nat (length heap) <? k then heapq.heappush heap it
  else heapq.heappushpop heap it.

(** The closure [dfs]; the heap it mutates is passed through. *)
Fixpoint dfs (k : Z) (cur_node : TrieNode) (built : word) (heap : list item)
  : list item :=
  let heap1 :=
    if is_word cur_node then admit_item k heap (freq cur_node, built)
    else heap in
  let subs := map (fun p => (fst p, dfs k (snd p))) (children cur_node) in
  fold_left
    (fun h ch =>
       match Dict.get ch subs with
       | Some go => go (built ++ [ch]) h
       | None => h
       end)
    (sorted_syms (Dict.keys (children cur_node))) heap1.

Definition complete (t : Trie) (prefix : word) (k : Z) : list word :=
  match fst (_trace t prefix) with
  | None => []
  | Some node => map snd (sorted_by_rank (dfs k node prefix []))
  end.

(** ** [stats] and [items] *)

Fixpoint height (node : TrieNode) : Z :=
  match children node with
  | [] => 0
  | (_, c) :: rest =>
      1 + fold_left Z.max (map (fun p => height (snd p)) rest) (height c)
  end.

Definition stats (t : Trie) : Z * Z * Z :=
  (_total_words t, height (root t), _total_nodes t).

Fixpoint gather (node : TrieNode) (prefix : word) (pairs : list (word * Z))
  : list (word * Z) :=
  let pairs1 :=
    if is_word node then pairs ++ [(prefix, freq node)] else pairs in
  fold_left
    (fun acc p => snd p (prefix ++ [fst p]) acc)
    (map (fun p => (fst p, gather (snd p))) (children node))
    pairs1.

Definition items (t : Trie) : list (word * Z) := gather (root t) [] [].

(** ** Structural views used by the proofs *)

(** The node [_trace] ends at, without the path. *)
Fixpoint find (node : TrieNode) (text : word) : option TrieNode :=
  match text with
  | [] => Some node
  | ch :: rest =>
      match Dict.get ch (children node) with
      | None => None
      | Some nxt => find nxt rest
      end
  end.

(** [remove] below [node], read off the path bottom-up: [inc] is the symbol
    stored beside [node] in the path.  The result is the rebuilt node,
    whether the pruning loop is still running when it reaches [node], and
    how many times [_total_nodes] was decremented. *)
Fixpoint remove_walk (inc : option symbol) (node : TrieNode) (w : word)
  : option (TrieNode * bool * Z) :=
  match w with
  | [] =>
      if is_word node then Some (mkNode (children node) false 0, true, 0)
      else None
  | ch :: rest =>
      match Dict.get ch (children node) with
      | None => None
      | Some child =>
          match remove_walk (Some ch) child rest with
          | None => None
          | Some (child', pruning, d) =>
              let parent :=
                set_children node (Dict.set ch child' (children node)) in
              if pruning && is_dead child' then
                if mem_sym inc (children parent) then
                  Some (set_children parent (del_sym inc (children parent)),
                        true, d + 1)
                else Some (parent, true, d)
              else Some (parent, false, d)
          end
      end
  end.

(** The entries [dfs] offers to the heap, in the order it finds them. *)
Fixpoint words_in (node : TrieNode) (built : word) : list item :=
  (if is_word node then [(freq node, built)] else []) ++
  let subs := map (fun p => (fst p, words_in (snd p))) (children node) in
  flat_map
    (fun ch =>
       match Dict.get ch subs with
       | Some go => go (built ++ [ch])
       | None => []
       end)
    (sorted_syms (Dict.keys (children node))).

(** The pairs [gather] appends, in the order it appends them. *)
Fixpoint words_of (node : TrieNode) (prefix : word) : list (word * Z) :=
  (if is_word node then [(prefix, freq node)] else []) ++
  flat_map (fun p => words_of (snd p) (prefix ++ [fst p])) (children node).

(** Sum of a measure over the children of a node. *)
Definition total_of (m : TrieNode -> Z) (d : list (symbol * TrieNode)) : Z :=
  fold_right Z.add 0 (map (fun p => m (snd p)) d).

(** Number of [TrieNode] objects in the tree below and including [n]. *)
Fixpoint node_count (n : TrieNode) : Z :=
  1 + total_of node_count (children n).

(** Number of those with [is_word] set. *)
Fixpoint word_count (n : TrieNode) : Z :=
  (if is_word n then 1 else 0) + total_of word_count (children n).

Fixpoint nodupb (l : list symbol) : bool :=
  match l with
  | [] => true
  | x :: r => negb (existsb (Ascii.eqb x) r) && nodupb r
  end.

(** Every [children] has the key uniqueness of a Python dict. *)
Fixpoint wf_node (n : TrieNode) : bool :=
  nodupb (Dict.keys (children n)) &&
  forallb (fun b => b) (map (fun p => wf_node (snd p)) (children n)).

Definition wf (t : Trie) : Prop := wf_node (root t) = true.

(** I3 below and at [n]: no node is a non-terminal leaf. *)
Fixpoint no_dead_leaf (n : TrieNode) : bool :=
  negb (is_dead n) &&
  forallb (fun b => b) (map (fun p => no_dead_leaf (snd p)) (children n)).

(** I3 for every node other than the root. *)
Definition no_dead_branch (t : Trie) : Prop :=
  forallb (fun p => no_dead_leaf (snd p)) (children (root t)) = true.

(** The terminal flags and the children maps, without the weights. *)
#[warnings="-register-all"]
Inductive Shape : Type :=
  ShapeNode : list (symbol * Shape) -> bool -> Shape.

Fixpoint shape (n : TrieNode) : Shape :=
  ShapeNode (map (fun p => (fst p, shape (snd p))) (children n)) (is_word n).

(** The weight stored at the node of [w], if that node exists. *)
Definition weight_at (t : Trie) (w : word) : option Z :=
  option_map freq (find (root t) w).

Definition weight_of (t : Trie) (w : word) : Z :=
  match find (root t) w with Some n => freq n | None => 0 end.

(** [w.startswith(p)] *)
Fixpoint has_prefix (p w : word) : bool :=
  match p, w with
  | [], _ => true
  | _ :: _, [] => false
  | x :: p', y :: w' => Ascii.eqb x y && has_prefix p' w'
  end.

(** The order of the result: weight descending, then word ascending. *)
Definition ranks_before (t : Trie) (a b : word) : Prop :=
  weight_of t b < weight_of t a \/
  (weight_of t a = weight_of t b /\ word_ltb a b = true).

Definition item_before (a b : item) : Prop :=
  fst b < fst a \/ (fst a = fst b /\ word_ltb (snd a) (snd b) = true).

(** The order [sorted] leaves between neighbours: the later key is not
    below the earlier one. *)
Definition rank_le (x y : item) : Prop :=
  item_ltb (rank_key y) (rank_key x) = false.

(** States of an index: a fresh one, then any calls of [insert], [remove]. *)
Inductive reachable : Trie -> Prop :=
| reach_init : reachable Trie_init
| reach_insert t w f : reachable t -> reachable (insert t w f)
| reach_remove t w : reachable t -> reachable (snd (remove t w)).

Definition w_ (s : string) : word := list_ascii_of_string s.

(** ** The loader of the command line (src/app.py) *)

(** [handle_load], from the list that [load_csv] returned: a new index
    into which every pair is inserted in order. *)
Definition handle_load (data : list (word * Z)) : Trie :=
  fold_left (fun trie p => insert trie (fst p) (snd p)) data Trie_init.

(** ** Further views used by the proofs *)

(** What the index knows about [w] below [node]: whether it is stored and
    the weight at its node (0 where there is no node, as in a new node). *)
Definition word_info (node : TrieNode) (w : word) : bool * Z :=
  match find node w with
  | Some n => (is_word n, freq n)
  | None => (false, 0)
  end.

(** Tuple comparison [a <= b] on heap entries, as [not b < a]. *)
Definition item_le (a b : item) : Prop := item_ltb b a = false.

(** * Lemmas *)

Unset Implicit Arguments.
#[local] Arguments Z.add : simpl never.
#[local] Arguments Z.sub : simpl never.

(** Induction over a node with the hypothesis for every child. *)
Lemma TrieNode_rect_children (P : TrieNode -> Prop) :
  (forall cs iw f, Forall (fun p => P (snd p)) cs -> P (mkNode cs iw f)) ->
  forall n, P n.
Proof.
  intros step.
  fix IH 1.
  intros [cs iw f]. apply step.
  induction cs as [|[c n] cs IHcs]; constructor.
  - exact (IH n).
  - exact IHcs.
Qed.

(** ** Dictionaries *)

Section DictFacts.
Variable V : Type.
Implicit Types (d : list (symbol * V)) (ch c : symbol) (v : V).

Lemma get_In ch d v : Dict.get ch d = Some v -> In (ch, v) d.
Proof.
  induction d as [|[c x] d IH]; simpl; [discriminate|].
  destruct (Ascii.eqb_spec ch c) as [->|ne].
  - intros [= ->]. now left.
  - intros H. right. auto.
Qed.

Lemma get_None_keys ch d : Dict.get ch d = None -> ~ In ch (Dict.keys d).
Proof.
  induction d as [|[c x] d IH]; simpl; [tauto|].
  destruct (Ascii.eqb_spec ch c) as [->|ne]; [discriminate|].
  intros H [e|i]; [congruence|]. now apply IH.
Qed.

Lemma get_Some_keys ch d v : Dict.get ch d = Some v -> In ch (Dict.keys d).
Proof.
  intros H. apply get_In in H. now apply (in_map fst) in H.
Qed.

Lemma keys_get ch d : In ch (Dict.keys d) -> exists v, Dict.get ch d = Some v.
Proof.
  induction d as [|[c x] d IH]; simpl; [tauto|].
  destruct (Ascii.eqb_spec ch c) as [->|ne]; [eauto|].
  intros [e|i]; [congruence|auto].
Qed.

Lemma In_get ch d v :
  NoDup (Dict.keys d) -> In (ch, v) d -> Dict.get ch d = Some v.
Proof.
  induction d as [|[c x] d IH]; simpl; [tauto|].
  intros nd. inversion nd as [|? ? notin nd']; subst.
  destruct (Ascii.eqb_spec ch c) as [->|ne].
  - intros [[= ->]|i]; [reflexivity|].
    exfalso. apply notin. now apply (in_map fst) in i.
  - intros [[= e _]|i]; [congruence|auto].
Qed.

Lemma get_set_same ch v d : Dict.get ch (Dict.set ch v d) = Some v.
Proof.
  induction d as [|[c x] d IH]; simpl.
  - now rewrite Ascii.eqb_refl.
  - destruct (Ascii.eqb_spec ch c) as [->|ne]; simpl.
    + now rewrite Ascii.eqb_refl.
    + destruct (Ascii.eqb_spec ch c); [contradiction|exact IH].
Qed.

Lemma get_set_other ch c v d :
  c <> ch -> Dict.get c (Dict.set ch v d) = Dict.get c d.
Proof.
  intros ne. induction d as [|[k x] d IH]; simpl.
  - destruct (Ascii.eqb_spec c ch); [contradiction|reflexivity].
  - destruct (Ascii.eqb_spec ch k) as [->|ne']; simpl.
    + destruct (Ascii.eqb_spec c k); [contradiction|reflexivity].
    + destruct (Ascii.eqb_spec c k); [reflexivity|exact IH].
Qed.

Lemma keys_set_present ch v d x :
  Dict.get ch d = Some x -> Dict.keys (Dict.set ch v d) = Dict.keys d.
Proof.
  induction d as [|[k y] d IH]; simpl; [discriminate|].
  destruct (Ascii.eqb_spec ch k) as [->|ne]; simpl; [reflexivity|].
  intros H. f_equal. auto.
Qed.

Lemma keys_set_absent ch v d :
  Dict.get ch d = None -> Dict.keys (Dict.set ch v d) = Dict.keys d ++ [ch].
Proof.
  induction d as [|[k y] d IH]; simpl; [reflexivity|].
  destruct (Ascii.eqb_spec ch k) as [->|ne]; simpl; [discriminate|].
  intros H. f_equal. auto.
Qed.

Lemma In_set ch v d p :
  In p (Dict.set ch v d) -> p = (ch, v) \/ In p d.
Proof.
  induction d as [|[k y] d IH]; simpl.
  - intros [<-|[]]. now left.
  - destruct (Ascii.eqb_spec ch k) as [->|ne]; simpl.
    + intros [<-|i]; auto.
    + intros [<-|i]; auto. destruct (IH i); auto.
Qed.

Lemma In_del ch d p : In p (Dict.del ch d) -> In p d.
Proof.
  induction d as [|[k y] d IH]; simpl; [tauto|].
  destruct (Ascii.eqb_spec ch k) as [->|ne]; simpl; [auto|].
  intros [<-|i]; auto.
Qed.

Lemma get_del_same ch d :
  NoDup (Dict.keys d) -> Dict.get ch (Dict.del ch d) = None.
Proof.
  induction d as [|[k y] d IH]; simpl; [reflexivity|].
  intros nd. inversion nd as [|? ? notin nd']; subst.
  destruct (Ascii.eqb_spec ch k) as [->|ne]; simpl.
  - destruct (Dict.get k d) eqn:E; [|reflexivity].
    exfalso. apply notin. eapply get_Some_keys; eauto.
  - destruct (Ascii.eqb_spec ch k); [contradiction|auto].
Qed.

Lemma get_del_other ch c d :
  c <> ch -> Dict.get c (Dict.del ch d) = Dict.get c d.
Proof.
  intros ne. induction d as [|[k y] d IH]; simpl; [reflexivity|].
  destruct (Ascii.eqb_spec ch k) as [->|ne']; simpl.
  - destruct (Ascii.eqb_spec c k); [contradiction|reflexivity].
  - destruct (Ascii.eqb_spec c k); [reflexivity|exact IH].
Qed.

Lemma NoDup_keys_del ch d :
  NoDup (Dict.keys d) -> NoDup (Dict.keys (Dict.del ch d)).
Proof.
  induction d as [|[k y] d IH]; simpl; [auto|].
  intros nd. inversion nd as [|? ? notin nd']; subst.
  destruct (Ascii.eqb_spec ch k) as [->|ne]; simpl; [assumption|].
  constructor; [|auto].
  intros i. apply notin. unfold Dict.keys in *.
  apply in_map_iff in i as [p [e i]]. apply In_del in i.
  subst k. now apply in_map.
Qed.

Lemma get_map (W : Type) (g : V -> W) ch d :
  Dict.get ch (map (fun p => (fst p, g (snd p))) d)
  = option_map g (Dict.get ch d).
Proof.
  induction d as [|[k y] d IH]; simpl; [reflexivity|].
  destruct (Ascii.eqb ch k); [reflexivity|exact IH].
Qed.
End DictFacts.

(** ** [_trace] and [find] *)

Lemma trace_loop_find node path text :
  fst (trace_loop node path text) = find node text.
Proof.
  revert node path. induction text as [|ch rest IH]; intros; simpl.
  - reflexivity.
  - destruct (Dict.get ch (children node)); [apply IH|reflexivity].
Qed.

Lemma trace_find t text : fst (_trace t text) = find (root t) text.
Proof. apply trace_loop_find. Qed.

Lemma contains_find t w :
  contains t w = match find (root t) w with
                 | Some n => is_word n
                 | None => false
                 end.
Proof. unfold contains. now rewrite trace_find. Qed.

Lemma find_app node a b :
  find node (a ++ b) = match find node a with
                       | Some n => find n b
                       | None => None
                       end.
Proof.
  revert node. induction a as [|ch a IH]; intros; simpl; [reflexivity|].
  destruct (Dict.get ch (children node)); [apply IH|reflexivity].
Qed.

Lemma trace_loop_path node path text :
  trace_loop node path text =
  match trace_loop node [] text with
  | (Some n, p) => (Some n, path ++ p)
  | (None, _) => (None, [])
  end.
Proof.
  revert node path. induction text as [|ch rest IH]; intros; simpl.
  - now rewrite app_nil_r.
  - destruct (Dict.get ch (children node)) as [nxt|]; [|reflexivity].
    rewrite IH. rewrite (IH nxt [_]).
    destruct (trace_loop nxt [] rest) as [[n|] p]; [|reflexivity].
    now rewrite <- app_assoc.
Qed.

(** ** [remove]: the loop over the path is the walk unwinding *)

Lemma prune_loop_unwind text :
  forall node inc,
    match trace_loop node [] text with
    | (Some last, p) =>
        if is_word last then
          exists x key ab node' pr d,
            rev ((node, inc) :: p) = (x, key) :: ab /\
            remove_walk inc node text = Some (node', pr, d) /\
            forall above nodes,
              prune_loop (ab ++ above) (mkNode (children last) false 0)
                         key true nodes
              = prune_loop above node' inc pr (nodes - d)
        else remove_walk inc node text = None
    | (None, _) => remove_walk inc node text = None
    end.
Proof.
  induction text as [|ch rest IH]; intros node inc.
  - simpl. destruct (is_word node); [|reflexivity].
    exists node, inc, [], (mkNode (children node) false 0), true, 0.
    repeat split. intros. simpl. now rewrite Z.sub_0_r.
  - simpl. destruct (Dict.get ch (children node)) as [nxt|] eqn:G;
      [|reflexivity].
    rewrite trace_loop_path. specialize (IH nxt (Some ch)).
    destruct (trace_loop nxt [] rest) as [[last|] p']; [|now rewrite IH].
    destruct (is_word last); [|now rewrite IH].
    destruct IH as (x & key & ab & child' & pr & d & Hrev & Hwalk & Hloop).
    rewrite Hwalk.
    change (rev ([(nxt, Some ch)] ++ p')) with (rev ((nxt, Some ch) :: p')).
    rewrite Hrev. cbn [app].
    assert (Hstep : forall above nodes,
      prune_loop ((ab ++ [(node, inc)]) ++ above)
                 (mkNode (children last) false 0) key true nodes
      = prune_loop ((node, inc) :: above) child' (Some ch) pr (nodes - d)).
    { intros. rewrite <- app_assoc. apply Hloop. }
    destruct (pr && is_dead child') eqn:Hp.
    + destruct (mem_sym inc (Dict.set ch child' (children node))) eqn:Hm.
      * do 6 eexists. split; [reflexivity|]. split; [reflexivity|].
        intros above nodes. rewrite Hstep. simpl. rewrite Hp, Hm.
        f_equal. lia.
      * do 6 eexists. split; [reflexivity|]. split; [reflexivity|].
        intros above nodes. rewrite Hstep. simpl. now rewrite Hp, Hm.
    + do 6 eexists. split; [reflexivity|]. split; [reflexivity|].
      intros above nodes. rewrite Hstep. simpl. now rewrite Hp.
Qed.

(** [remove] in terms of the walk. *)
Lemma remove_unfold t w :
  remove t w =
  match remove_walk None (root t) w with
  | Some (r, _, d) => (true, mkTrie r (_total_words t - 1) (_total_nodes t - d))
  | None => (false, t)
  end.
Proof.
  unfold remove, _trace. rewrite trace_loop_path.
  pose proof (prune_loop_unwind w (root t) None) as H.
  destruct (trace_loop (root t) [] w) as [[last|] p]; [|now rewrite H].
  destruct (is_word last); [|now rewrite H].
  destruct H as (x & key & ab & node' & pr & d & Hrev & Hwalk & Hloop).
  change ([(root t, None)] ++ p) with ((root t, @None symbol) :: p).
  rewrite Hrev, Hwalk. specialize (Hloop [] (_total_nodes t)).
  rewrite app_nil_r in Hloop. rewrite Hloop. reflexivity.
Qed.

Lemma remove_walk_found inc node w :
  remove_walk inc node w <> None <->
  exists n, find node w = Some n /\ is_word n = true.
Proof.
  revert inc node. induction w as [|ch rest IH]; intros; simpl.
  - destruct (is_word node) eqn:E; split.
    + intros _. eauto.
    + discriminate.
    + congruence.
    + intros (n & [= <-] & H). congruence.
  - destruct (Dict.get ch (children node)) as [child|].
    + specialize (IH (Some ch) child).
      destruct (remove_walk (Some ch) child rest) as [[[c' pr] d]|].
      * split; [intros _; apply IH; discriminate|intros _].
        destruct (pr && is_dead c'); [destruct (mem_sym _ _)|]; discriminate.
      * split; [congruence|]. intros H. apply IH in H. congruence.
    + split; [congruence|]. intros (n & H & _). discriminate.
Qed.

(** ** Key uniqueness is kept by every operation *)

Lemma nodupb_NoDup l : nodupb l = true <-> NoDup l.
Proof.
  induction l as [|x r IH]; simpl.
  - split; [constructor|reflexivity].
  - rewrite andb_true_iff, negb_true_iff, IH. split.
    + intros [H nd]. constructor; [|assumption].
      intros i. assert (existsb (Ascii.eqb x) r = true); [|congruence].
      apply existsb_exists. exists x. split; [assumption|apply Ascii.eqb_refl].
    + intros nd. inversion nd as [|? ? notin nd']; subst. split; [|assumption].
      destruct (existsb (Ascii.eqb x) r) eqn:E; [|reflexivity].
      apply existsb_exists in E as [y [i e]].
      apply Ascii.eqb_eq in e. subst y. contradiction.
Qed.

Lemma wf_node_inv n :
  wf_node n = true <->
  NoDup (Dict.keys (children n)) /\
  forall p, In p (children n) -> wf_node (snd p) = true.
Proof.
  destruct n as [cs iw f]. simpl.
  rewrite andb_true_iff, nodupb_NoDup, forallb_forall.
  split; intros [nd H]; split; try assumption.
  - intros p i. apply H. apply in_map_iff. now exists p.
  - intros b i. apply in_map_iff in i as [p [<- i]]. auto.
Qed.

Lemma wf_get node ch child :
  wf_node node = true -> Dict.get ch (children node) = Some child ->
  wf_node child = true.
Proof.
  intros W G. apply wf_node_inv in W as [_ W].
  apply get_In in G. exact (W _ G).
Qed.

Lemma NoDup_keys_set (V : Type) ch (v : V) d :
  NoDup (Dict.keys d) -> NoDup (Dict.keys (Dict.set ch v d)).
Proof.
  intros nd. destruct (Dict.get ch d) as [x|] eqn:G.
  - now rewrite keys_set_present with (x := x).
  - rewrite keys_set_absent by exact G.
    apply NoDup_app; repeat split; auto.
    + repeat constructor. simpl. tauto.
    + intros a i [<-|[]]. now apply get_None_keys in G.
Qed.

Lemma wf_set_child node ch child :
  wf_node node = true -> wf_node child = true ->
  wf_node (set_children node (Dict.set ch child (children node))) = true.
Proof.
  intros W Wc. apply wf_node_inv in W as [nd W].
  apply wf_node_inv. simpl. split.
  - now apply NoDup_keys_set.
  - intros p i. apply In_set in i as [->|i]; auto.
Qed.

Lemma wf_del_child node ch :
  wf_node node = true ->
  wf_node (set_children node (del_sym ch (children node))) = true.
Proof.
  intros W. destruct ch as [c|].
  - apply wf_node_inv in W as [nd W]. apply wf_node_inv. simpl. split.
    + now apply NoDup_keys_del.
    + intros p i. apply In_del in i. auto.
  - destruct node. exact W.
Qed.

Lemma insert_walk_wf w f :
  forall node, wf_node node = true ->
               wf_node (fst (fst (insert_walk node w f))) = true.
Proof.
  induction w as [|ch rest IH]; intros node W.
  - destruct node. exact W.
  - simpl.
    assert (Wc : wf_node (match Dict.get ch (children node) with
                          | Some c => c | None => new_node end) = true).
    { destruct (Dict.get ch (children node)) eqn:G; [|reflexivity].
      eapply wf_get; eauto. }
    destruct (Dict.get ch (children node)) as [c|];
      specialize (IH _ Wc);
      destruct (insert_walk _ rest f) as [[c' m] a]; simpl in *;
      now apply wf_set_child.
Qed.

Lemma remove_walk_wf w :
  forall inc node node' pr d,
    wf_node node = true -> remove_walk inc node w = Some (node', pr, d) ->
    wf_node node' = true.
Proof.
  induction w as [|ch rest IH]; intros inc node node' pr d W; simpl.
  - destruct (is_word node); [|discriminate]. intros [= <- _ _].
    destruct node. exact W.
  - destruct (Dict.get ch (children node)) as [child|] eqn:G; [|discriminate].
    destruct (remove_walk (Some ch) child rest) as [[[c' p'] d']|] eqn:R;
      [|discriminate].
    assert (Wc : wf_node c' = true).
    { eapply IH; [|exact R]. eapply wf_get; eauto. }
    pose proof (wf_set_child node ch c' W Wc) as Wp.
    destruct (p' && is_dead c').
    + destruct (mem_sym inc _); intros [= <- _ _]; [|exact Wp].
      exact (wf_del_child _ inc Wp).
    + intros [= <- _ _]. exact Wp.
Qed.

Lemma reachable_wf t : reachable t -> wf t.
Proof.
  unfold wf. induction 1 as [|t w f _ IH|t w _ IH].
  - reflexivity.
  - unfold insert. pose proof (insert_walk_wf w f _ IH) as H.
    destruct (insert_walk (root t) w f) as [[r m] a]. exact H.
  - rewrite remove_unfold.
    destruct (remove_walk None (root t) w) as [[[r pr] d]|] eqn:R;
      [|exact IH].
    simpl. eapply remove_walk_wf; eauto.
Qed.

(** ** After [remove] the word is gone *)

Lemma remove_walk_clears w :
  forall inc node node' pr d,
    wf_node node = true -> remove_walk inc node w = Some (node', pr, d) ->
    match find node' w with
    | Some n => is_word n = false
    | None => True
    end.
Proof.
  induction w as [|ch rest IH]; intros inc node node' pr d W; simpl.
  - destruct (is_word node); [|discriminate]. now intros [= <- _ _].
  - destruct (Dict.get ch (children node)) as [child|] eqn:G; [|discriminate].
    destruct (remove_walk (Some ch) child rest) as [[[c' p'] d']|] eqn:R;
      [|discriminate].
    assert (Hc : match find c' rest with
                 | Some n => is_word n = false | None => True end).
    { eapply IH; [|exact R]. eapply wf_get; eauto. }
    assert (Hkeep : match Dict.get ch (Dict.set ch c' (children node)) with
                    | Some nxt => find nxt rest | None => None end
                    = find c' rest) by now rewrite get_set_same.
    destruct (p' && is_dead c').
    + destruct (mem_sym inc _); intros [= <- _ _]; simpl;
        [|now rewrite Hkeep].
      destruct inc as [c|]; simpl; [|now rewrite Hkeep].
      destruct (Ascii.eqb_spec ch c) as [<-|ne].
      * rewrite get_del_same; [exact I|].
        apply NoDup_keys_set. now apply wf_node_inv in W.
      * rewrite get_del_other by congruence. now rewrite Hkeep.
    + intros [= <- _ _]. simpl. now rewrite Hkeep.
Qed.

(** ** Counting nodes and words *)

Lemma node_count_eq n : node_count n = 1 + total_of node_count (children n).
Proof. now destruct n. Qed.

Lemma word_count_eq n :
  word_count n = (if is_word n then 1 else 0) + total_of word_count (children n).
Proof. now destruct n. Qed.

Section Totals.
Variable m : TrieNode -> Z.

Lemma total_set_present ch v d x :
  Dict.get ch d = Some x ->
  total_of m (Dict.set ch v d) = total_of m d - m x + m v.
Proof.
  unfold total_of. induction d as [|[k y] d IH]; simpl; [discriminate|].
  destruct (Ascii.eqb_spec ch k) as [->|ne]; simpl.
  - intros [= ->]. lia.
  - intros G. rewrite (IH G). lia.
Qed.

Lemma total_set_absent ch v d :
  Dict.get ch d = None -> total_of m (Dict.set ch v d) = total_of m d + m v.
Proof.
  unfold total_of. induction d as [|[k y] d IH]; simpl; [lia|].
  destruct (Ascii.eqb_spec ch k) as [->|ne]; simpl; [discriminate|].
  intros G. rewrite (IH G). lia.
Qed.

Lemma total_del_present ch d x :
  Dict.get ch d = Some x -> total_of m (Dict.del ch d) = total_of m d - m x.
Proof.
  unfold total_of. induction d as [|[k y] d IH]; simpl; [discriminate|].
  destruct (Ascii.eqb_spec ch k) as [->|ne]; simpl.
  - intros [= ->]. lia.
  - intros G. rewrite (IH G). lia.
Qed.
End Totals.

Lemma node_count_pos n : 1 <= node_count n.
Proof.
  induction n as [cs iw f IH] using TrieNode_rect_children.
  rewrite node_count_eq. cbn [children].
  enough (0 <= total_of node_count cs) by lia.
  unfold total_of. induction IH as [|p cs Hp _ IHcs]; simpl; lia.
Qed.

Lemma mem_sym_get inc d :
  mem_sym inc d = true -> exists c x, inc = Some c /\ Dict.get c d = Some x.
Proof.
  destruct inc as [c|]; simpl; [|discriminate].
  unfold Dict.mem. destruct (Dict.get c d) as [x|] eqn:G; [|discriminate].
  eauto.
Qed.

(** [insert] keeps both counters exact. *)
Lemma insert_walk_counts w f :
  forall node node' made added,
    insert_walk node w f = (node', made, added) ->
    node_count node' = node_count node + made /\
    word_count node' = word_count node + added.
Proof.
  induction w as [|ch rest IH]; intros node node' made added; simpl.
  - intros [= <- <- <-]. rewrite !node_count_eq, !word_count_eq.
      cbn [children is_word set_children].
    destruct (is_word node); lia.
  - destruct (Dict.get ch (children node)) as [c|] eqn:G.
    + destruct (insert_walk c rest f) as [[c' m'] a'] eqn:E.
      intros [= <- <- <-]. destruct (IH _ _ _ _ E) as [Hn Hw].
      rewrite !node_count_eq, !word_count_eq.
      cbn [children is_word set_children].
      rewrite !total_set_present with (x := c) by exact G. lia.
    + destruct (insert_walk new_node rest f) as [[c' m'] a'] eqn:E.
      intros [= <- <- <-]. destruct (IH _ _ _ _ E) as [Hn Hw].
      rewrite !node_count_eq, !word_count_eq.
      cbn [children is_word set_children].
      rewrite !total_set_absent by exact G.
      change (node_count new_node) with 1 in Hn.
      change (word_count new_node) with 0 in Hw. lia.
Qed.

(** Each decrement of [_total_nodes] in [remove] detaches at least one
    node. *)
Lemma remove_walk_nodes w :
  forall inc node node' pr d,
    remove_walk inc node w = Some (node', pr, d) ->
    node_count node' <= node_count node - d.
Proof.
  induction w as [|ch rest IH]; intros inc node node' pr d; simpl.
  - destruct (is_word node); [|discriminate]. intros [= <- _ <-].
    rewrite !node_count_eq. cbn [children set_children]. lia.
  - destruct (Dict.get ch (children node)) as [child|] eqn:G; [|discriminate].
    destruct (remove_walk (Some ch) child rest) as [[[c' p'] d']|] eqn:R;
      [|discriminate].
    specialize (IH _ _ _ _ _ R).
    assert (Hset : total_of node_count (Dict.set ch c' (children node))
                   <= total_of node_count (children node) - d').
    { rewrite total_set_present with (x := child) by exact G. lia. }
    destruct (p' && is_dead c').
    + destruct (mem_sym inc _) eqn:M; intros [= <- _ <-];
        rewrite !node_count_eq; cbn [children set_children]; [|lia].
      apply mem_sym_get in M as (c & x & -> & Gx). cbn [del_sym].
      rewrite total_del_present with (x := x) by exact Gx.
      pose proof (node_count_pos x). lia.
    + intros [= <- _ <-]. rewrite !node_count_eq. cbn [children set_children]. lia.
Qed.

Lemma reachable_nodes t : reachable t -> node_count (root t) <= _total_nodes t.
Proof.
  induction 1 as [|t w f _ IH|t w _ IH].
  - simpl. reflexivity.
  - unfold insert.
    destruct (insert_walk (root t) w f) as [[r m] a] eqn:E.
    apply insert_walk_counts in E as [Hn _]. simpl. lia.
  - rewrite remove_unfold.
    destruct (remove_walk None (root t) w) as [[[r pr] d]|] eqn:R;
      [|exact IH].
    apply remove_walk_nodes in R. simpl. lia.
Qed.

(** ** Re-inserting a stored word *)

Lemma shape_eq n :
  shape n = ShapeNode (map (fun p => (fst p, shape (snd p))) (children n))
                      (is_word n).
Proof. now destruct n. Qed.

Lemma map_set_same (W : Type) (g : TrieNode -> W) ch v d x :
  Dict.get ch d = Some x -> g v = g x ->
  map (fun p => (fst p, g (snd p))) (Dict.set ch v d)
  = map (fun p => (fst p, g (snd p))) d.
Proof.
  intros G e. induction d as [|[k y] d IH]; simpl in *; [discriminate|].
  destruct (Ascii.eqb_spec ch k) as [->|ne]; simpl.
  - injection G as ->. now rewrite e.
  - f_equal. auto.
Qed.

Lemma insert_walk_present w f :
  forall node n node' made added,
    find node w = Some n -> is_word n = true ->
    insert_walk node w f = (node', made, added) ->
    made = 0 /\ added = 0 /\
    shape node' = shape node /\
    find node' w = Some (mkNode (children n) true f) /\
    forall w', w' <> w ->
               option_map freq (find node' w') = option_map freq (find node w').
Proof.
  induction w as [|ch rest IH]; intros node n node' made added; simpl.
  - intros [= <-] T [= <- <- <-]. rewrite T. repeat split.
    + rewrite !shape_eq. simpl. now rewrite T.
    + intros [|c r] ne; [congruence|reflexivity].
  - destruct (Dict.get ch (children node)) as [c|] eqn:G; [|discriminate].
    intros F T. destruct (insert_walk c rest f) as [[c' m'] a'] eqn:E.
    intros [= <- <- <-].
    destruct (IH _ _ _ _ _ F T E) as (-> & -> & Hs & Hf & Ho).
    repeat split.
    + rewrite !shape_eq. simpl. f_equal.
      now apply map_set_same with (x := c).
    + simpl. now rewrite get_set_same.
    + intros [|k r] ne; [reflexivity|]. simpl.
      destruct (Ascii.eqb_spec k ch) as [->|nk].
      * rewrite get_set_same, G. apply Ho. congruence.
      * now rewrite get_set_other.
Qed.

(** ** [insert] leaves no dead branch *)

Lemma no_dead_leaf_inv n :
  no_dead_leaf n = true <->
  is_dead n = false /\
  forall p, In p (children n) -> no_dead_leaf (snd p) = true.
Proof.
  destruct n as [cs iw f]. simpl.
  rewrite andb_true_iff, negb_true_iff, forallb_forall.
  split; intros [nd H]; split; try assumption.
  - intros p i. apply H. apply in_map_iff. now exists p.
  - intros b i. apply in_map_iff in i as [p [<- i]]. auto.
Qed.

Lemma set_not_nil (V : Type) ch (v : V) d : Dict.set ch v d <> [].
Proof.
  destruct d as [|[k y] d]; simpl; [discriminate|].
  destruct (Ascii.eqb ch k); discriminate.
Qed.

Lemma insert_walk_no_dead w f :
  forall node,
    (forall p, In p (children node) -> no_dead_leaf (snd p) = true) ->
    no_dead_leaf (fst (fst (insert_walk node w f))) = true.
Proof.
  induction w as [|ch rest IH]; intros node H.
  - apply no_dead_leaf_inv. simpl. split; [|exact H].
    unfold is_dead. simpl. now destruct (children node).
  - simpl.
    assert (Hc : forall p,
               In p (children (match Dict.get ch (children node) with
                               | Some c => c | None => new_node end)) ->
               no_dead_leaf (snd p) = true).
    { destruct (Dict.get ch (children node)) as [c|] eqn:G; [|intros p []].
      apply get_In in G. apply H in G. now apply no_dead_leaf_inv in G. }
    destruct (Dict.get ch (children node)) as [c|];
      specialize (IH _ Hc);
      destruct (insert_walk _ rest f) as [[c' m'] a']; cbn [fst] in *;
      apply no_dead_leaf_inv; simpl; (split;
        [ unfold is_dead; simpl;
          pose proof (set_not_nil _ ch c' (children node));
          now destruct (Dict.set ch c' (children node))
        | intros p i; apply In_set in i as [->|i]; auto ]).
Qed.

(** ** The order on words and on heap entries *)

Lemma ascii_compare_refl x : Ascii.compare x x = Eq.
Proof. apply N.compare_refl. Qed.

Lemma ascii_compare_lt_trans x y z :
  Ascii.compare x y = Lt -> Ascii.compare y z = Lt -> Ascii.compare x z = Lt.
Proof.
  unfold Ascii.compare. rewrite !N.compare_lt_iff. apply N.lt_trans.
Qed.

Lemma word_compare_eq a : forall b, word_compare a b = Eq -> a = b.
Proof.
  induction a as [|x a IH]; intros [|y b]; simpl; try discriminate; auto.
  destruct (Ascii.compare x y) eqn:C; try discriminate.
  apply Ascii.compare_eq_iff in C as ->. intros H. f_equal. auto.
Qed.

Lemma word_compare_antisym a :
  forall b, word_compare b a = CompOpp (word_compare a b).
Proof.
  induction a as [|x a IH]; intros [|y b]; simpl; auto.
  rewrite (Ascii.compare_antisym x y).
  destruct (Ascii.compare y x); simpl; auto.
Qed.

Lemma word_compare_lt_trans a :
  forall b c, word_compare a b = Lt -> word_compare b c = Lt ->
              word_compare a c = Lt.
Proof.
  induction a as [|x a IH]; intros [|y b] [|z c]; simpl;
    try discriminate; auto.
  destruct (Ascii.compare x y) eqn:Cxy; try discriminate;
    destruct (Ascii.compare y z) eqn:Cyz; try discriminate.
  - apply Ascii.compare_eq_iff in Cxy as ->.
    apply Ascii.compare_eq_iff in Cyz as ->.
    rewrite ascii_compare_refl. apply IH.
  - apply Ascii.compare_eq_iff in Cxy as ->. now rewrite Cyz.
  - apply Ascii.compare_eq_iff in Cyz as <-. now rewrite Cxy.
  - now rewrite (ascii_compare_lt_trans x y z).
Qed.

Lemma word_ltb_trans a b c :
  word_ltb a b = true -> word_ltb b c = true -> word_ltb a c = true.
Proof.
  unfold word_ltb. intros H1 H2.
  rewrite (word_compare_lt_trans a b c); auto.
  - now destruct (word_compare a b).
  - now destruct (word_compare b c).
Qed.

Lemma word_ltb_total a b :
  word_ltb b a = false -> a <> b -> word_ltb a b = true.
Proof.
  unfold word_ltb. rewrite (word_compare_antisym a b).
  destruct (word_compare a b) eqn:C; simpl; auto; try discriminate.
  intros _ ne. now apply word_compare_eq in C.
Qed.

Lemma word_ltb_asym a b : word_ltb a b = true -> word_ltb b a = false.
Proof.
  unfold word_ltb. rewrite (word_compare_antisym a b).
  now destruct (word_compare a b).
Qed.

Lemma item_ltb_asym a b : item_ltb a b = true -> item_ltb b a = false.
Proof.
  unfold item_ltb.
  rewrite orb_true_iff, andb_true_iff, Z.ltb_lt, Z.eqb_eq.
  rewrite orb_false_iff, andb_false_iff, Z.ltb_ge, Z.eqb_neq.
  intros [H|[e H]]; split; try lia.
  right. now apply word_ltb_asym.
Qed.

Lemma item_before_trans a b c :
  item_before a b -> item_before b c -> item_before a c.
Proof.
  unfold item_before. intros [H1|[e1 H1]] [H2|[e2 H2]]; try (left; lia).
  right. split; [lia|]. eapply word_ltb_trans; eauto.
Qed.

(** Two entries in sorted order with different words are strictly ranked. *)
Lemma rank_le_before x y :
  item_ltb (rank_key y) (rank_key x) = false -> snd x <> snd y ->
  item_before x y.
Proof.
  unfold item_ltb, rank_key, item_before. simpl.
  rewrite orb_false_iff, andb_false_iff, Z.ltb_ge, Z.eqb_neq.
  intros [H1 H2] ne.
  destruct (Z.eq_dec (fst x) (fst y)) as [e|n]; [right|left; lia].
  split; [assumption|]. destruct H2 as [H2|H2]; [lia|].
  now apply word_ltb_total.
Qed.

(** ** [sorted] *)

Lemma sym_insert_perm x l : Permutation (sym_insert x l) (x :: l).
Proof.
  induction l as [|y r IH]; simpl; [reflexivity|].
  destruct (Ascii.compare y x); try reflexivity.
  rewrite IH. apply perm_swap.
Qed.

Lemma sorted_syms_perm l : Permutation (sorted_syms l) l.
Proof.
  induction l as [|x r IH]; simpl; [reflexivity|].
  rewrite sym_insert_perm. now constructor.
Qed.

Lemma rank_insert_perm x l : Permutation (rank_insert x l) (x :: l).
Proof.
  induction l as [|y r IH]; simpl; [reflexivity|].
  destruct (item_ltb (rank_key y) (rank_key x)); try reflexivity.
  rewrite IH. apply perm_swap.
Qed.

Lemma sorted_by_rank_perm l : Permutation (sorted_by_rank l) l.
Proof.
  induction l as [|x r IH]; simpl; [reflexivity|].
  rewrite rank_insert_perm. now constructor.
Qed.

Lemma rank_insert_sorted x l :
  Sorted rank_le l -> Sorted rank_le (rank_insert x l).
Proof.
  induction 1 as [|y r S IH Hd]; simpl; [repeat constructor|].
  destruct (item_ltb (rank_key y) (rank_key x)) eqn:C.
  - constructor; [exact IH|].
    destruct r as [|z r]; simpl.
    + constructor. now apply item_ltb_asym.
    + destruct (item_ltb (rank_key z) (rank_key x)).
      * inversion Hd; subst. now constructor.
      * constructor. now apply item_ltb_asym.
  - constructor; [now constructor|]. constructor. exact C.
Qed.

Lemma sorted_by_rank_sorted l : Sorted rank_le (sorted_by_rank l).
Proof.
  induction l as [|x r IH]; simpl; [constructor|].
  now apply rank_insert_sorted.
Qed.

Lemma sorted_strict l :
  Sorted rank_le l -> NoDup (map snd l) -> StronglySorted item_before l.
Proof.
  intros S nd. apply Sorted_StronglySorted.
  - intros a b c. apply item_before_trans.
  - induction S as [|x r S IH Hd]; [constructor|].
    simpl in nd. inversion nd as [|? ? notin nd']; subst.
    constructor; [auto|].
    destruct Hd as [|y r' Hxy]; constructor.
    apply rank_le_before; [exact Hxy|].
    intros e. apply notin. simpl. now left.
Qed.

(** ** The heap *)

Lemma heappush_perm heap it : Permutation (heapq.heappush heap it) (it :: heap).
Proof.
  induction heap as [|h rest IH]; simpl; [reflexivity|].
  destruct (item_ltb it h); [reflexivity|].
  rewrite IH. apply perm_swap.
Qed.

Lemma heappushpop_In heap it x :
  In x (heapq.heappushpop heap it) -> x = it \/ In x heap.
Proof.
  destruct heap as [|h rest]; simpl; [tauto|].
  destruct (item_ltb h it); [|tauto].
  intros i. apply (Permutation_in _ (heappush_perm rest it)) in i.
  destruct i as [<-|i]; auto.
Qed.

Lemma heappushpop_length heap it :
  length (heapq.heappushpop heap it) = length heap.
Proof.
  destruct heap as [|h rest]; simpl; [reflexivity|].
  destruct (item_ltb h it); [|reflexivity].
  now rewrite (Permutation_length (heappush_perm rest it)).
Qed.

Lemma admit_item_In k heap it x :
  In x (admit_item k heap it) -> x = it \/ In x heap.
Proof.
  unfold admit_item. destruct (Z.of_nat (length heap) <? k).
  - intros i. apply (Permutation_in _ (heappush_perm heap it)) in i.
    destruct i as [<-|i]; auto.
  - apply heappushpop_In.
Qed.

Lemma admit_item_length k heap it :
  Z.of_nat (length heap) <= Z.max 0 k ->
  Z.of_nat (length (admit_item k heap it)) <= Z.max 0 k.
Proof.
  unfold admit_item. destruct (Z.ltb_spec (Z.of_nat (length heap)) k).
  - rewrite (Permutation_length (heappush_perm heap it)). simpl length. lia.
  - now rewrite heappushpop_length.
Qed.

Lemma admit_all_In k l :
  forall heap x, In x (fold_left (admit_item k) l heap) -> In x heap \/ In x l.
Proof.
  induction l as [|it l IH]; intros heap x; simpl; [auto|].
  intros i. apply IH in i as [i|i]; [|auto].
  apply admit_item_In in i as [->|i]; auto.
Qed.

Lemma admit_all_length k l :
  forall heap, Z.of_nat (length heap) <= Z.max 0 k ->
               Z.of_nat (length (fold_left (admit_item k) l heap)) <= Z.max 0 k.
Proof.
  induction l as [|it l IH]; intros heap H; simpl; [exact H|].
  apply IH. now apply admit_item_length.
Qed.

(** While there is room every entry is pushed. *)
Lemma admit_all_room k l :
  forall heap, Z.of_nat (length heap + length l) <= k ->
               Permutation (fold_left (admit_item k) l heap) (heap ++ l).
Proof.
  induction l as [|it l IH]; intros heap H; simpl.
  - now rewrite app_nil_r.
  - simpl in H. rewrite IH.
    + unfold admit_item.
      destruct (Z.ltb_spec (Z.of_nat (length heap)) k); [|lia].
      rewrite heappush_perm. now rewrite <- Permutation_middle.
    + unfold admit_item.
      destruct (Z.ltb_spec (Z.of_nat (length heap)) k); [|lia].
      rewrite (Permutation_length (heappush_perm heap it)). simpl length.
      lia.
Qed.

(** With [k <= 0] nothing is ever admitted. *)
Lemma admit_all_none k l : k <= 0 -> fold_left (admit_item k) l [] = [].
Proof.
  intros H. induction l as [|it l IH]; simpl; [reflexivity|].
  unfold admit_item at 2. simpl length.
  destruct (Z.ltb_spec (Z.of_nat 0) k); [lia|]. exact IH.
Qed.

(** ** What [dfs] finds *)

Lemma fold_left_pointwise (A B : Type) (g h : A -> B -> A) l :
  (forall a b, g a b = h a b) ->
  forall a, fold_left g l a = fold_left h l a.
Proof.
  intros e. induction l as [|b l IH]; intros a; simpl; [reflexivity|].
  now rewrite e, IH.
Qed.

Lemma dfs_unfold k node built heap :
  dfs k node built heap =
  fold_left
    (fun h ch =>
       match Dict.get ch (children node) with
       | Some c => dfs k c (built ++ [ch]) h
       | None => h
       end)
    (sorted_syms (Dict.keys (children node)))
    (if is_word node then admit_item k heap (freq node, built) else heap).
Proof.
  destruct node as [cs iw f]. simpl.
  apply fold_left_pointwise. intros h ch. rewrite get_map.
  now destruct (Dict.get ch cs).
Qed.

Lemma words_in_unfold node built :
  words_in node built =
  (if is_word node then [(freq node, built)] else []) ++
  flat_map
    (fun ch =>
       match Dict.get ch (children node) with
       | Some c => words_in c (built ++ [ch])
       | None => []
       end)
    (sorted_syms (Dict.keys (children node))).
Proof.
  destruct node as [cs iw f]. simpl. f_equal.
  apply flat_map_ext. intros ch. rewrite get_map.
  now destruct (Dict.get ch cs).
Qed.

(** [dfs] offers the entries of [words_in] to the heap one after another. *)
Lemma dfs_words_in k node :
  forall built heap,
    dfs k node built heap = fold_left (admit_item k) (words_in node built) heap.
Proof.
  induction node as [cs iw f IH] using TrieNode_rect_children.
  intros built heap. rewrite dfs_unfold, words_in_unfold, fold_left_app.
  cbn [children is_word freq].
  rewrite Forall_forall in IH.
  assert (Hl : forall L h,
    fold_left
      (fun h ch =>
         match Dict.get ch cs with
         | Some c => dfs k c (built ++ [ch]) h
         | None => h
         end) L h
    = fold_left (admit_item k)
        (flat_map
           (fun ch =>
              match Dict.get ch cs with
              | Some c => words_in c (built ++ [ch])
              | None => []
              end) L) h).
  { induction L as [|ch L IHL]; intros h; simpl; [reflexivity|].
    rewrite fold_left_app, IHL.
    destruct (Dict.get ch cs) as [c|] eqn:G; [|reflexivity].
    apply get_In in G. now rewrite (IH _ G). }
  destruct iw; cbn [fold_left]; apply Hl.
Qed.

Lemma words_in_sound node :
  forall built f w,
    In (f, w) (words_in node built) ->
    exists s n, w = built ++ s /\ find node s = Some n /\
                is_word n = true /\ freq n = f.
Proof.
  induction node as [cs iw fr IH] using TrieNode_rect_children.
  intros built f w. rewrite words_in_unfold. cbn [children is_word freq].
  rewrite Forall_forall in IH. intros i. apply in_app_or in i as [i|i].
  - destruct iw eqn:T; [|contradiction]. destruct i as [[= <- <-]|[]].
    exists [], (mkNode cs true fr). now rewrite app_nil_r.
  - apply in_flat_map in i as (ch & _ & i).
    destruct (Dict.get ch cs) as [c|] eqn:G; [|contradiction].
    apply (IH _ (get_In _ _ _ _ G)) in i as (s & n & -> & F & T & e).
    exists (ch :: s), n. rewrite <- app_assoc. simpl. rewrite G. auto.
Qed.

Lemma words_in_complete s :
  forall node built n,
    find node s = Some n -> is_word n = true ->
    In (freq n, built ++ s) (words_in node built).
Proof.
  induction s as [|ch s IH]; intros node built n; simpl;
    rewrite words_in_unfold.
  - intros [= <-] T. rewrite T, app_nil_r. now left.
  - destruct (Dict.get ch (children node)) as [c|] eqn:G; [|discriminate].
    intros F T. apply in_or_app. right. apply in_flat_map. exists ch. split.
    + apply (Permutation_in _ (Permutation_sym (sorted_syms_perm _))).
      eapply get_Some_keys; eauto.
    + rewrite G. replace (built ++ ch :: s) with ((built ++ [ch]) ++ s)
        by now rewrite <- app_assoc.
      now apply IH.
Qed.

Section FlatNoDup.
Variables (A B : Type) (key : A -> symbol) (proj : B -> word).
Variables (F : A -> list B) (built : word).

(** Below different symbols the spelled words differ. *)
Lemma flat_map_nodup L :
  NoDup (map key L) ->
  (forall a, In a L -> NoDup (map proj (F a))) ->
  (forall a x, In a L -> In x (F a) -> exists s, proj x = built ++ key a :: s) ->
  NoDup (map proj (flat_map F L)).
Proof.
  induction L as [|a L IH]; simpl; intros nd Hn Hs; [constructor|].
  inversion nd as [|? ? notin nd']; subst. rewrite map_app.
  apply NoDup_app; auto.
  intros w i1 i2.
  apply in_map_iff in i1 as (x1 & <- & i1).
  apply in_map_iff in i2 as (x2 & e & i2).
  apply in_flat_map in i2 as (a2 & ia2 & i2).
  destruct (Hs a x1 (or_introl eq_refl) i1) as (s1 & e1).
  destruct (Hs a2 x2 (or_intror ia2) i2) as (s2 & e2).
  rewrite e1, e2 in e. apply app_inv_head in e. injection e as e _.
  apply notin. rewrite <- e. now apply in_map.
Qed.

Lemma flat_map_spelled L x :
  (forall a y, In a L -> In y (F a) -> exists s, proj y = built ++ key a :: s) ->
  In x (flat_map F L) -> proj x <> built.
Proof.
  intros Hs i e. apply in_flat_map in i as (a & ia & i).
  destruct (Hs a x ia i) as (s & e'). rewrite e in e'.
  apply (f_equal (@length _)) in e'. rewrite length_app in e'. simpl in e'.
  lia.
Qed.
End FlatNoDup.

Lemma words_in_nodup node :
  wf_node node = true ->
  forall built, NoDup (map snd (words_in node built)).
Proof.
  induction node as [cs iw fr IH] using TrieNode_rect_children.
  intros W built. apply wf_node_inv in W as [nd W]. cbn [children] in nd, W.
  rewrite Forall_forall in IH.
  rewrite words_in_unfold. cbn [children is_word freq].
  set (F := fun ch => match Dict.get ch cs with
                      | Some c => words_in c (built ++ [ch])
                      | None => []
                      end).
  assert (Hs : forall ch x, In ch (sorted_syms (Dict.keys cs)) -> In x (F ch) ->
                            exists s, snd x = built ++ (fun c => c) ch :: s).
  { intros ch [f w] _ i. unfold F in i.
    destruct (Dict.get ch cs) as [c|]; [|contradiction].
    apply words_in_sound in i as (s & n & -> & _). exists s.
    simpl. now rewrite <- app_assoc. }
  rewrite map_app. apply NoDup_app.
  - destruct iw; repeat constructor. simpl. tauto.
  - apply flat_map_nodup with (key := fun c => c) (built := built).
    + rewrite map_id.
      apply (Permutation_NoDup (Permutation_sym (sorted_syms_perm _)) nd).
    + intros ch _. unfold F. destruct (Dict.get ch cs) as [c|] eqn:G;
        [|constructor].
      apply get_In in G. exact (IH (ch, c) G (W _ G) (built ++ [ch])).
    + exact Hs.
  - intros w i1 i2. apply in_map_iff in i2 as (x & <- & i2).
    eapply flat_map_spelled in i2; [|exact Hs].
    apply i2. destruct iw; simpl in i1; [|contradiction].
    now destruct i1 as [<-|[]].
Qed.

(** ** What [gather] collects *)

Lemma fold_left_over_map (A B C : Type) (g : A -> C -> A) (h : B -> C) l :
  forall a, fold_left g (map h l) a = fold_left (fun a x => g a (h x)) l a.
Proof. induction l as [|x l IH]; intros a; simpl; auto. Qed.

Lemma gather_unfold node prefix pairs :
  gather node prefix pairs =
  fold_left (fun acc p => gather (snd p) (prefix ++ [fst p]) acc)
            (children node)
            (if is_word node then pairs ++ [(prefix, freq node)] else pairs).
Proof. destruct node as [cs iw f]. simpl. apply fold_left_over_map. Qed.

Lemma words_of_unfold node prefix :
  words_of node prefix =
  (if is_word node then [(prefix, freq node)] else []) ++
  flat_map (fun p => words_of (snd p) (prefix ++ [fst p])) (children node).
Proof. now destruct node. Qed.

Lemma gather_words_of node :
  forall prefix pairs, gather node prefix pairs = pairs ++ words_of node prefix.
Proof.
  induction node as [cs iw f IH] using TrieNode_rect_children.
  intros prefix pairs. rewrite gather_unfold, words_of_unfold.
  cbn [children is_word freq].
  assert (Hl : forall acc,
    fold_left (fun acc p => gather (snd p) (prefix ++ [fst p]) acc) cs acc
    = acc ++ flat_map (fun p => words_of (snd p) (prefix ++ [fst p])) cs).
  { induction IH as [|p L Hp _ IHL]; intros acc; simpl.
    - now rewrite app_nil_r.
    - now rewrite IHL, Hp, app_assoc. }
  rewrite Hl. destruct iw; [now rewrite <- app_assoc|reflexivity].
Qed.

Lemma items_words_of t : items t = words_of (root t) [].
Proof. unfold items. now rewrite gather_words_of. Qed.

Lemma words_of_length node :
  forall prefix, Z.of_nat (length (words_of node prefix)) = word_count node.
Proof.
  induction node as [cs iw f IH] using TrieNode_rect_children.
  intros prefix. rewrite words_of_unfold, word_count_eq, length_app.
  cbn [children is_word freq]. rewrite Nat2Z.inj_add. f_equal.
  - now destruct iw.
  - unfold total_of. induction IH as [|p L Hp _ IHL]; simpl; [reflexivity|].
    rewrite length_app, Nat2Z.inj_add, Hp, IHL. reflexivity.
Qed.

Lemma words_of_sound node :
  wf_node node = true ->
  forall prefix w f,
    In (w, f) (words_of node prefix) ->
    exists s n, w = prefix ++ s /\ find node s = Some n /\
                is_word n = true /\ freq n = f.
Proof.
  induction node as [cs iw fr IH] using TrieNode_rect_children.
  intros W prefix w f. apply wf_node_inv in W as [nd W].
  cbn [children] in nd, W. rewrite Forall_forall in IH.
  rewrite words_of_unfold. cbn [children is_word freq].
  intros i. apply in_app_or in i as [i|i].
  - destruct iw eqn:T; [|contradiction]. destruct i as [[= <- <-]|[]].
    exists [], (mkNode cs true fr). now rewrite app_nil_r.
  - apply in_flat_map in i as ([ch c] & ic & i). cbn [fst snd] in i.
    apply (IH _ ic (W _ ic)) in i as (s & n & -> & F & T & e).
    exists (ch :: s), n. rewrite <- app_assoc. simpl.
    rewrite (In_get _ _ _ _ nd ic). auto.
Qed.

Lemma words_of_complete s :
  forall node prefix n,
    find node s = Some n -> is_word n = true ->
    In (prefix ++ s, freq n) (words_of node prefix).
Proof.
  induction s as [|ch s IH]; intros node prefix n; simpl;
    rewrite words_of_unfold.
  - intros [= <-] T. rewrite T, app_nil_r. now left.
  - destruct (Dict.get ch (children node)) as [c|] eqn:G; [|discriminate].
    intros F T. apply in_or_app. right. apply in_flat_map.
    exists (ch, c). split; [now apply get_In|]. cbn [fst snd].
    replace (prefix ++ ch :: s) with ((prefix ++ [ch]) ++ s)
      by now rewrite <- app_assoc.
    now apply IH.
Qed.

Lemma words_of_nodup node :
  wf_node node = true ->
  forall prefix, NoDup (map fst (words_of node prefix)).
Proof.
  induction node as [cs iw fr IH] using TrieNode_rect_children.
  intros W prefix. apply wf_node_inv in W as [nd W]. cbn [children] in nd, W.
  rewrite Forall_forall in IH.
  rewrite words_of_unfold. cbn [children is_word freq].
  set (F := fun p : symbol * TrieNode => words_of (snd p) (prefix ++ [fst p])).
  assert (Hs : forall p x, In p cs -> In x (F p) ->
                           exists s, fst x = prefix ++ fst p :: s).
  { intros p [w f] ip i. unfold F in i.
    apply (words_of_sound _ (W _ ip)) in i as (s & n & -> & _).
    exists s. simpl. now rewrite <- app_assoc. }
  rewrite map_app. apply NoDup_app.
  - destruct iw; repeat constructor. simpl. tauto.
  - apply flat_map_nodup with (key := fst) (built := prefix).
    + exact nd.
    + intros p ip. exact (IH p ip (W _ ip) _).
    + exact Hs.
  - intros w i1 i2. apply in_map_iff in i2 as (x & <- & i2).
    eapply flat_map_spelled in i2; [|exact Hs].
    apply i2. destruct iw; simpl in i1; [|contradiction].
    now destruct i1 as [<-|[]].
Qed.

(** ** Prefixes *)

Lemma has_prefix_app p s : has_prefix p (p ++ s) = true.
Proof.
  induction p as [|x p IH]; simpl; [reflexivity|].
  now rewrite Ascii.eqb_refl.
Qed.

Lemma has_prefix_split p :
  forall w, has_prefix p w = true -> exists s, w = p ++ s.
Proof.
  induction p as [|x p IH]; intros w; simpl; [eauto|].
  destruct w as [|y w]; [discriminate|].
  rewrite andb_true_iff, Ascii.eqb_eq. intros [-> H].
  destruct (IH _ H) as [s ->]. eauto.
Qed.

Lemma wf_find s :
  forall node n, wf_node node = true -> find node s = Some n ->
                 wf_node n = true.
Proof.
  induction s as [|ch s IH]; intros node n W; simpl.
  - now intros [= <-].
  - destruct (Dict.get ch (children node)) as [c|] eqn:G; [|discriminate].
    apply IH. eapply wf_get; eauto.
Qed.

Lemma StronglySorted_map_In (A B : Type) (R : A -> A -> Prop)
      (R' : B -> B -> Prop) (g : A -> B) l :
  (forall x y, In x l -> In y l -> R x y -> R' (g x) (g y)) ->
  StronglySorted R l -> StronglySorted R' (map g l).
Proof.
  intros H S. induction S as [|x l S IH Hx]; simpl; constructor.
  - apply IH. intros a b ia ib. apply H; now right.
  - rewrite Forall_forall in *. intros b ib.
    apply in_map_iff in ib as (y & <- & iy).
    apply H; [now left|now right|auto].
Qed.

(** The heap of [complete] holds entries of [words_in] only, and each
    of them carries the weight stored at its word. *)
Lemma complete_entries t prefix node k x :
  find (root t) prefix = Some node ->
  In x (sorted_by_rank (dfs k node prefix [])) ->
  has_prefix prefix (snd x) = true /\
  contains t (snd x) = true /\
  weight_of t (snd x) = fst x.
Proof.
  intros F i.
  apply (Permutation_in _ (sorted_by_rank_perm _)) in i.
  rewrite dfs_words_in in i. apply admit_all_In in i as [[]|i].
  destruct x as [f w].
  apply words_in_sound in i as (s & n & -> & Fs & T & e). simpl.
  rewrite has_prefix_app, contains_find. unfold weight_of.
  rewrite find_app, F, Fs. auto.
Qed.

(** ** The scenarios of the specification, run on the model *)

Example scenario_ranked_tie :
  complete (insert (insert (insert Trie_init (w_ "cat") 5) (w_ "car") 5)
                   (w_ "cart") 3) (w_ "ca") 2
  = [w_ "car"; w_ "cat"].
Proof. reflexivity. Qed.

Example scenario_stats :
  stats (insert (insert (insert Trie_init (w_ "a") 1) (w_ "ab") 1)
                (w_ "abc") 1)
  = (3, 3, 4).
Proof. reflexivity. Qed.

(** The pruning loop looks up the symbol stored beside the parent, ['b']
    for node "ab", which is no key of that node: the node of "abc" stays. *)
Example scenario_remove_leaf_word :
  remove (insert (insert (insert Trie_init (w_ "a") 1) (w_ "ab") 1)
                 (w_ "abc") 1) (w_ "abc")
  = (true,
     mkTrie (mkNode [("a"%char,
               mkNode [("b"%char,
                 mkNode [("c"%char, mkNode [] false 0)] true 1)] true 1)]
               false 0) 2 4).
Proof. reflexivity. Qed.

Example scenario_remove_missing :
  remove Trie_init (w_ "xyz") = (false, Trie_init) /\
  stats Trie_init = (0, 0, 1).
Proof. split; reflexivity. Qed.

Example scenario_no_match :
  complete (insert (insert (insert Trie_init (w_ "cat") 5) (w_ "car") 5)
                   (w_ "cart") 3) (w_ "z") 5
  = [].
Proof. reflexivity. Qed.

(** Below the root, too, [remove] can leave a non-terminal leaf. *)
Example remove_keeps_dead_node :
  remove (insert Trie_init (w_ "a") 1) (w_ "a")
  = (true, mkTrie (mkNode [("a"%char, mkNode [] false 0)] false 0) 0 2).
Proof. reflexivity. Qed.

(** * The claims *)

(** C1 (defect in [complete]).  With "a" and "b" stored at the same
    weight, [complete("", 1)] returns ["b"], although "a" ranks first under
    (weight descending, word ascending), as [complete("", 2)] itself
    shows: the heap evicts the smaller word of a tie. *)
Theorem C1_tie_evicts_smaller_word :
  let t := insert (insert Trie_init (w_ "a") 1) (w_ "b") 1 in
  complete t [] 1 = [w_ "b"] /\
  complete t [] 2 = [w_ "a"; w_ "b"] /\
  ranks_before t (w_ "a") (w_ "b").
Proof.
  cbv zeta. split; [reflexivity|]. split; [reflexivity|].
  right. split; reflexivity.
Qed.

(** C2 (defect in [remove]).  After inserting "a", the call [remove("a")]
    returns true and keeps the node of "a", now a non-terminal node with
    no children, below the root: the last round of the pruning loop looks
    up the symbol stored beside the root, [''], which is no key, so
    nothing is deleted and [node_count] stays 2.  Before the call no node
    below the root was a non-terminal leaf. *)
Theorem C2_remove_leaves_dead_leaf :
  let t := insert Trie_init (w_ "a") 1 in
  let t' := snd (remove t (w_ "a")) in
  reachable t' /\
  no_dead_branch t /\
  fst (remove t (w_ "a")) = true /\
  children (root t') = [("a"%char, mkNode [] false 0)] /\
  forallb (fun p => no_dead_leaf (snd p)) (children (root t')) = false /\
  stats t' = (0, 1, 2).
Proof.
  cbv zeta. split.
  - apply reach_remove, reach_insert, reach_init.
  - repeat split; reflexivity.
Qed.

(** C3 (defect in [remove]).  After inserting "aaa" and "ab", the call
    [remove("ab")] deletes the child "a" of node "a", which is the branch
    of "aaa", and keeps the dead node of "ab": [stats] reports 1 word and
    4 nodes while the tree holds 0 terminal nodes and 3 nodes. *)
Theorem C3_counters_drift_after_remove :
  let t := insert (insert Trie_init (w_ "aaa") 1) (w_ "ab") 1 in
  let t' := snd (remove t (w_ "ab")) in
  reachable t' /\
  fst (remove t (w_ "ab")) = true /\
  stats t' = (1, 2, 4) /\
  node_count (root t') = 3 /\
  word_count (root t') = 0 /\
  contains t' (w_ "aaa") = false.
Proof.
  cbv zeta. split.
  - apply reach_remove, reach_insert, reach_insert, reach_init.
  - repeat split; reflexivity.
Qed.

(** C4.  [remove(w)] returns true exactly when [contains(w)] holds before
    the call; a false result leaves the index as it was; a true result
    lowers [word_count] by one and makes [contains(w)] false, so that a
    second [remove(w)] returns false. *)
Theorem C4_remove_reports_presence t w :
  wf t ->
  fst (remove t w) = contains t w /\
  (fst (remove t w) = false -> snd (remove t w) = t) /\
  (fst (remove t w) = true ->
   _total_words (snd (remove t w)) = _total_words t - 1 /\
   contains (snd (remove t w)) w = false /\
   fst (remove (snd (remove t w)) w) = false).
Proof.
  intros W.
  assert (Hfst : forall u, fst (remove u w) = contains u w).
  { intros u. rewrite remove_unfold, contains_find.
    pose proof (remove_walk_found None (root u) w) as [H1 H2].
    destruct (remove_walk None (root u) w) as [[[r pr] d]|].
    - destruct H1 as (n & -> & ->); [discriminate|reflexivity].
    - destruct (find (root u) w) as [n|]; [|reflexivity].
      destruct (is_word n) eqn:T; [|reflexivity].
      exfalso. apply H2; eauto. }
  split; [apply Hfst|].
  assert (Hgone : fst (remove t w) = true ->
                  contains (snd (remove t w)) w = false).
  { rewrite remove_unfold, contains_find.
    destruct (remove_walk None (root t) w) as [[[r pr] d]|] eqn:R;
      [|discriminate].
    intros _. simpl. pose proof (remove_walk_clears w _ _ _ _ _ W R) as C.
    destruct (find r w); [exact C|reflexivity]. }
  split.
  - rewrite remove_unfold.
    destruct (remove_walk None (root t) w) as [[[r pr] d]|];
      [discriminate|reflexivity].
  - intros T. split; [|split].
    + revert T. rewrite remove_unfold.
      destruct (remove_walk None (root t) w) as [[[r pr] d]|];
        [reflexivity|discriminate].
    + auto.
    + rewrite Hfst. auto.
Qed.

Lemma C4_remove_reports_presence_witness :
  let t := insert (insert Trie_init (w_ "car") 5) (w_ "cat") 5 in
  wf t /\
  fst (remove t (w_ "car")) = true /\
  fst (remove (snd (remove t (w_ "car"))) (w_ "car")) = false.
Proof.
  cbv zeta.
  assert (W : wf (insert (insert Trie_init (w_ "car") 5) (w_ "cat") 5))
    by reflexivity.
  split; [exact W|].
  destruct (C4_remove_reports_presence _ (w_ "car") W) as (_ & _ & H).
  split; [reflexivity|]. apply H. reflexivity.
Defined.

(** C5.  Inserting a word that is already stored changes neither counter
    nor the tree's nodes, children maps and terminal flags; the weight at
    the word's node becomes the new one and the weight at every other
    node stays. *)
Theorem C5_reinsert_updates_weight_only t w f2 :
  contains t w = true ->
  _total_words (insert t w f2) = _total_words t /\
  _total_nodes (insert t w f2) = _total_nodes t /\
  shape (root (insert t w f2)) = shape (root t) /\
  weight_at (insert t w f2) w = Some f2 /\
  forall w', w' <> w -> weight_at (insert t w f2) w' = weight_at t w'.
Proof.
  rewrite contains_find. unfold weight_at, insert.
  destruct (find (root t) w) as [n|] eqn:F; [|discriminate].
  intros T. destruct (insert_walk (root t) w f2) as [[r m] a] eqn:E.
  destruct (insert_walk_present w f2 _ _ _ _ _ F T E)
    as (-> & -> & Hs & Hf & Ho).
  simpl. repeat split; try lia; try assumption.
  now rewrite Hf.
Qed.

Lemma C5_reinsert_updates_weight_only_witness :
  let t := insert (insert Trie_init (w_ "car") 5) (w_ "cat") 5 in
  contains t (w_ "car") = true /\
  _total_words (insert t (w_ "car") 9) = 2 /\
  weight_at (insert t (w_ "car") 9) (w_ "car") = Some 9 /\
  weight_at (insert t (w_ "car") 9) (w_ "cat") = Some 5.
Proof.
  cbv zeta.
  destruct (C5_reinsert_updates_weight_only
              (insert (insert Trie_init (w_ "car") 5) (w_ "cat") 5)
              (w_ "car") 9 eq_refl) as (Hw & _ & _ & Hf & Ho).
  split; [reflexivity|]. split; [exact Hw|]. split; [exact Hf|].
  rewrite Ho; [reflexivity|discriminate].
Defined.

(** C6, as stated, fails: [items] follows the insertion order of the
    children dicts.  With "b" inserted before "a" it lists "b" first, and
    the other insertion order gives the other sequence. *)
Lemma C6_items_in_insertion_order :
  items (insert (insert Trie_init (w_ "b") 1) (w_ "a") 1)
  = [(w_ "b", 1); (w_ "a", 1)] /\
  word_ltb (w_ "b") (w_ "a") = false /\
  items (insert (insert Trie_init (w_ "a") 1) (w_ "b") 1)
  = [(w_ "a", 1); (w_ "b", 1)].
Proof. repeat split. Qed.

(** C6 (amended).  [items] lists one pair for every terminal node: as many
    pairs as terminal nodes, no word twice, and [(w, f)] is listed exactly
    when [w] is stored with weight [f].  The sequence is the pre-order
    walk that takes the children of each node in dict order. *)
Theorem C6_items_one_pair_per_word t :
  wf t ->
  Z.of_nat (length (items t)) = word_count (root t) /\
  NoDup (map fst (items t)) /\
  (forall w f, In (w, f) (items t) <->
               contains t w = true /\ weight_at t w = Some f) /\
  items t = words_of (root t) [].
Proof.
  intros W. rewrite items_words_of. split; [apply words_of_length|].
  split; [now apply words_of_nodup|]. split; [|reflexivity].
  intros w f. rewrite contains_find. unfold weight_at. split.
  - intros i. apply (words_of_sound _ W) in i as (s & n & -> & F & T & <-).
    simpl. now rewrite F.
  - destruct (find (root t) w) as [n|] eqn:F; [|intros [? _]; discriminate].
    simpl. intros [T [= <-]].
    exact (words_of_complete w (root t) [] n F T).
Qed.

Lemma C6_items_one_pair_per_word_witness :
  let t := insert (insert Trie_init (w_ "b") 1) (w_ "a") 2 in
  wf t /\
  Z.of_nat (length (items t)) = word_count (root t) /\
  NoDup (map fst (items t)).
Proof.
  cbv zeta.
  assert (W : wf (insert (insert Trie_init (w_ "b") 1) (w_ "a") 2))
    by reflexivity.
  destruct (C6_items_one_pair_per_word _ W) as (Hl & Hn & _).
  split; [exact W|]. split; [exact Hl|exact Hn].
Defined.

(** C7.  When the stored words with prefix [p], listed without repetition
    in [ws], are at most [k], then [complete(p, k)] returns all of them and
    nothing else, and of any two returned words the earlier one has the
    higher weight or, at equal weight, is the lexically smaller. *)
Theorem C7_complete_returns_all_in_order t p k ws :
  wf t ->
  NoDup ws ->
  (forall w, In w ws <-> has_prefix p w = true /\ contains t w = true) ->
  Z.of_nat (length ws) <= k ->
  Permutation (complete t p k) ws /\
  StronglySorted (ranks_before t) (complete t p k).
Proof.
  intros W nd Hws Hk. unfold complete. rewrite trace_find.
  destruct (find (root t) p) as [node|] eqn:F.
  - assert (Wn : wf_node node = true) by exact (wf_find p _ _ W F).
    pose proof (words_in_nodup node Wn p) as ndL.
    assert (Hperm : Permutation (map snd (words_in node p)) ws).
    { apply NoDup_Permutation; [exact ndL|exact nd|].
      intros w. rewrite Hws. split.
      - intros i. apply in_map_iff in i as ([f w'] & e & i).
        simpl in e. subst w'.
        apply words_in_sound in i as (s & n & -> & Fs & T & _).
        rewrite has_prefix_app, contains_find, find_app, F, Fs. auto.
      - intros [Hp Hc]. apply has_prefix_split in Hp as [s ->].
        rewrite contains_find, find_app, F in Hc.
        destruct (find node s) as [n|] eqn:Fs; [|discriminate].
        apply in_map_iff. exists (freq n, p ++ s). split; [reflexivity|].
        now apply words_in_complete. }
    assert (Hheap : Permutation (dfs k node p []) (words_in node p)).
    { rewrite dfs_words_in.
      apply (admit_all_room k (words_in node p) []).
      change (length [] + length (words_in node p))%nat
        with (length (words_in node p)).
      rewrite <- (Permutation_length Hperm), length_map in Hk. exact Hk. }
    assert (Hall : Permutation (sorted_by_rank (dfs k node p []))
                               (words_in node p)).
    { now rewrite sorted_by_rank_perm. }
    split.
    + now rewrite Hall.
    + apply StronglySorted_map_In with (R := item_before).
      * intros x y ix iy Hxy.
        destruct (complete_entries t p node k x F ix) as (_ & _ & ex).
        destruct (complete_entries t p node k y F iy) as (_ & _ & ey).
        unfold ranks_before. rewrite ex, ey. exact Hxy.
      * apply sorted_strict; [apply sorted_by_rank_sorted|].
        apply (Permutation_NoDup
                 (Permutation_sym (Permutation_map snd Hall)) ndL).
  - assert (E : ws = []).
    { destruct ws as [|w ws']; [reflexivity|]. exfalso.
      destruct (proj1 (Hws w) (or_introl eq_refl)) as [Hp Hc].
      apply has_prefix_split in Hp as [s ->].
      rewrite contains_find, find_app, F in Hc. discriminate. }
    subst ws. split; constructor.
Qed.

Lemma C7_complete_returns_all_in_order_witness :
  let t := insert (insert (insert Trie_init (w_ "cat") 5) (w_ "car") 5)
                  (w_ "cart") 3 in
  Permutation (complete t (w_ "ca") 3) [w_ "cat"; w_ "car"; w_ "cart"] /\
  StronglySorted (ranks_before t) (complete t (w_ "ca") 3) /\
  complete t (w_ "ca") 3 = [w_ "car"; w_ "cat"; w_ "cart"].
Proof.
  cbv zeta.
  assert (H : forall w,
    In w [w_ "cat"; w_ "car"; w_ "cart"] <->
    has_prefix (w_ "ca") w = true /\
    contains (insert (insert (insert Trie_init (w_ "cat") 5) (w_ "car") 5)
                     (w_ "cart") 3) w = true).
  { intros w. split.
    - intros [<-|[<-|[<-|[]]]]; split; reflexivity.
    - intros [Hp Hc]. apply has_prefix_split in Hp as [s ->].
      destruct s as [|c1 s]; [discriminate|].
      destruct (Ascii.eqb_spec c1 "t") as [->|n1];
        [|destruct (Ascii.eqb_spec c1 "r") as [->|n2]].
      + destruct s as [|c2 s]; [now left|]. exfalso. revert Hc.
        unfold contains, _trace. simpl. discriminate.
      + destruct s as [|c2 s]; [right; now left|].
        destruct (Ascii.eqb_spec c2 "t") as [->|n3].
        * destruct s as [|c3 s]; [right; right; now left|]. exfalso.
          revert Hc. unfold contains, _trace. simpl. discriminate.
        * exfalso. revert Hc. unfold contains, _trace. simpl.
          destruct (Ascii.eqb_spec c2 "t"); [contradiction|discriminate].
      + exfalso. revert Hc. unfold contains, _trace. simpl.
        destruct (Ascii.eqb_spec c1 "t"); [contradiction|].
        destruct (Ascii.eqb_spec c1 "r"); [contradiction|discriminate]. }
  destruct (C7_complete_returns_all_in_order
              (insert (insert (insert Trie_init (w_ "cat") 5) (w_ "car") 5)
                      (w_ "cart") 3)
              (w_ "ca") 3 [w_ "cat"; w_ "car"; w_ "cart"])
    as [Hp Hs].
  - reflexivity.
  - repeat constructor; simpl; intros H'; intuition discriminate.
  - exact H.
  - simpl. lia.
  - split; [exact Hp|]. split; [exact Hs|reflexivity].
Defined.

(** C8.  Every word returned by [complete(p, k)] starts with [p] and is
    stored, and the result has at most [k] entries (none when [k] is
    negative). *)
Theorem C8_complete_sound_and_bounded t p k :
  Forall (fun w => has_prefix p w = true /\ contains t w = true)
         (complete t p k) /\
  Z.of_nat (length (complete t p k)) <= Z.max 0 k.
Proof.
  unfold complete. rewrite trace_find.
  destruct (find (root t) p) as [node|] eqn:F.
  - split.
    + apply Forall_forall. intros w i.
      apply in_map_iff in i as (x & <- & i).
      destruct (complete_entries t p node k x F i) as (Hp & Hc & _). auto.
    + rewrite length_map, (Permutation_length (sorted_by_rank_perm _)).
      rewrite dfs_words_in. apply admit_all_length. simpl. lia.
  - split; [constructor|simpl; lia].
Qed.

(** C9.  [complete(p, k)] is the empty list when no node matches [p],
    when [k] is zero or negative, and when no stored word starts with
    [p]; being a total function it raises nothing. *)
Theorem C9_complete_empty_cases t p k :
  (fst (_trace t p) = None -> complete t p k = []) /\
  (k <= 0 -> complete t p k = []) /\
  ((forall w, has_prefix p w = true -> contains t w = false) ->
   complete t p k = []).
Proof.
  unfold complete. rewrite trace_find.
  split; [now intros ->|].
  destruct (find (root t) p) as [node|] eqn:F; [|auto].
  rewrite dfs_words_in. split.
  - intros H. now rewrite admit_all_none.
  - intros H.
    destruct (words_in node p) as [|[f w] l] eqn:E; [reflexivity|].
    exfalso.
    assert (i : In (f, w) (words_in node p)) by (rewrite E; now left).
    apply words_in_sound in i as (s & n & -> & Fs & T & _).
    specialize (H (p ++ s) (has_prefix_app p s)).
    rewrite contains_find, find_app, F, Fs in H. congruence.
Qed.

Lemma C9_complete_empty_cases_witness :
  let t := insert (insert (insert Trie_init (w_ "cat") 5) (w_ "car") 5)
                  (w_ "cart") 3 in
  complete t (w_ "z") 5 = [] /\
  complete t (w_ "ca") 0 = [] /\
  complete t (w_ "ca") (-3) = [] /\
  complete (snd (remove t (w_ "cart"))) (w_ "cart") 5 = [].
Proof.
  cbv zeta. split; [|split; [|split]].
  - apply (proj1 (C9_complete_empty_cases _ (w_ "z") 5)). reflexivity.
  - apply (proj1 (proj2 (C9_complete_empty_cases _ (w_ "ca") 0))). lia.
  - apply (proj1 (proj2 (C9_complete_empty_cases _ (w_ "ca") (-3)))). lia.
  - apply (proj2 (proj2 (C9_complete_empty_cases _ (w_ "cart") 5))).
    intros w Hp. apply has_prefix_split in Hp as [s ->].
    destruct s as [|c s]; reflexivity.
Defined.

(** C10.  On every state reached by [insert] and [remove] the root is
    where the empty trace ends and [node_count] is at least 1; removing
    the empty word when it is stored returns true, clears the root's flag
    and weight and leaves [node_count] and the root's children alone. *)
Theorem C10_root_is_kept t :
  reachable t ->
  fst (_trace t []) = Some (root t) /\
  1 <= _total_nodes t /\
  (contains t [] = true ->
   remove t [] =
   (true, mkTrie (mkNode (children (root t)) false 0)
                 (_total_words t - 1) (_total_nodes t))).
Proof.
  intros R. split; [reflexivity|]. split.
  - pose proof (reachable_nodes t R). pose proof (node_count_pos (root t)).
    lia.
  - unfold contains, remove, _trace. simpl. now intros ->.
Qed.

Lemma C10_root_is_kept_witness :
  let t := insert Trie_init [] 5 in
  reachable t /\
  contains t [] = true /\
  remove t [] = (true, mkTrie new_node 0 1) /\
  is_dead (root (snd (remove t []))) = true.
Proof.
  cbv zeta.
  assert (R : reachable (insert Trie_init [] 5))
    by apply reach_insert, reach_init.
  destruct (C10_root_is_kept _ R) as (_ & _ & H).
  split; [exact R|]. split; [reflexivity|].
  split; [exact (H eq_refl)|reflexivity].
Defined.

(** * Further properties of the code *)

(** ** [insert] seen through [contains] and the weights *)

Lemma contains_info t w : contains t w = fst (word_info (root t) w).
Proof.
  rewrite contains_find. unfold word_info.
  now destruct (find (root t) w).
Qed.

Lemma weight_of_info t w : weight_of t w = snd (word_info (root t) w).
Proof. unfold weight_of, word_info. now destruct (find (root t) w). Qed.

Lemma word_info_new_node w : word_info new_node w = (false, 0).
Proof. now destruct w. Qed.

Lemma insert_walk_info_same w f :
  forall node, word_info (fst (fst (insert_walk node w f))) w = (true, f).
Proof.
  induction w as [|ch rest IH]; intros node; [reflexivity|].
  simpl.
  destruct (Dict.get ch (children node)) as [c|];
    [specialize (IH c)|specialize (IH new_node)];
    destruct (insert_walk _ rest f) as [[c' m'] a']; cbn [fst] in *;
    unfold word_info in *; simpl; now rewrite get_set_same.
Qed.

Lemma insert_walk_info_other w f :
  forall node w', w' <> w ->
    word_info (fst (fst (insert_walk node w f))) w' = word_info node w'.
Proof.
  induction w as [|ch rest IH]; intros node w' ne.
  - destruct w' as [|c r]; [congruence|reflexivity].
  - simpl. destruct w' as [|k r].
    + destruct (Dict.get ch (children node));
        destruct (insert_walk _ rest f) as [[c' m'] a']; reflexivity.
    + destruct (Ascii.eqb_spec k ch) as [->|nk].
      * assert (nr : r <> rest) by congruence.
        destruct (Dict.get ch (children node)) as [c|] eqn:G.
        -- pose proof (IH c r nr) as H.
           destruct (insert_walk c rest f) as [[c' m'] a'].
           unfold word_info in *. simpl in *.
           now rewrite get_set_same, G.
        -- pose proof (IH new_node r nr) as H.
           rewrite word_info_new_node in H.
           destruct (insert_walk new_node rest f) as [[c' m'] a'].
           unfold word_info in *. simpl in *.
           now rewrite get_set_same, G.
      * destruct (Dict.get ch (children node));
          destruct (insert_walk _ rest f) as [[c' m'] a'];
          unfold word_info; simpl; now rewrite get_set_other.
Qed.

Lemma insert_walk_made w f :
  forall node node' made added,
    insert_walk node w f = (node', made, added) ->
    (0 <= made <= Z.of_nat (length w)) /\
    added = (if fst (word_info node w) then 0 else 1).
Proof.
  induction w as [|ch rest IH]; intros node node' made added; simpl.
  - intros [= <- <- <-]. split; [lia|reflexivity].
  - unfold word_info. simpl.
    destruct (Dict.get ch (children node)) as [c|] eqn:G.
    + destruct (insert_walk c rest f) as [[c' m'] a'] eqn:E.
      intros [= <- <- <-]. destruct (IH _ _ _ _ E) as [Hm Ha].
      split; [lia|exact Ha].
    + destruct (insert_walk new_node rest f) as [[c' m'] a'] eqn:E.
      intros [= <- <- <-]. destruct (IH _ _ _ _ E) as [Hm Ha].
      rewrite word_info_new_node in Ha. split; [lia|exact Ha].
Qed.


Lemma word_info_true node w f :
  word_info node w = (true, f) <->
  exists n, find node w = Some n /\ is_word n = true /\ freq n = f.
Proof.
  unfold word_info. destruct (find node w) as [n|]; split.
  - intros [= T e]. eauto.
  - intros (n' & [= <-] & T & e). now rewrite T, e.
  - discriminate.
  - intros (n' & H & _). discriminate.
Qed.

Lemma insert_info_same t w f : word_info (root (insert t w f)) w = (true, f).
Proof.
  unfold insert. pose proof (insert_walk_info_same w f (root t)) as H.
  destruct (insert_walk (root t) w f) as [[r m] a]. exact H.
Qed.

Lemma insert_info_other t w f w' :
  w' <> w -> word_info (root (insert t w f)) w' = word_info (root t) w'.
Proof.
  intros ne. unfold insert.
  pose proof (insert_walk_info_other w f (root t) w' ne) as H.
  destruct (insert_walk (root t) w f) as [[r m] a]. exact H.
Qed.

(** X1.  Right after [insert(w, f)] the word is stored with weight [f],
    whatever the index held before. *)
Theorem insert_then_contains t w f :
  contains (insert t w f) w = true /\ weight_at (insert t w f) w = Some f.
Proof.
  pose proof (insert_info_same t w f) as H.
  apply word_info_true in H as (n & F & T & e).
  rewrite contains_find. unfold weight_at. rewrite F. simpl.
  now rewrite T, e.
Qed.

(** X2.  [insert(w, f)] changes nothing about any other word: it is stored
    after the call exactly when it was before, with the same weight. *)
Theorem insert_keeps_other_words t w f w' :
  w' <> w ->
  contains (insert t w f) w' = contains t w' /\
  weight_of (insert t w f) w' = weight_of t w'.
Proof.
  intros ne. rewrite !contains_info, !weight_of_info.
  now rewrite insert_info_other.
Qed.

Lemma insert_keeps_other_words_witness :
  let t := insert Trie_init (w_ "car") 5 in
  contains (insert t (w_ "ca") 2) (w_ "car") = true /\
  weight_of (insert t (w_ "ca") 2) (w_ "car") = 5 /\
  contains (insert t (w_ "card") 2) (w_ "ca") = false.
Proof.
  cbv zeta.
  destruct (insert_keeps_other_words (insert Trie_init (w_ "car") 5)
              (w_ "ca") 2 (w_ "car")) as [Hc Hw]; [discriminate|].
  destruct (insert_keeps_other_words (insert Trie_init (w_ "car") 5)
              (w_ "card") 2 (w_ "ca")) as [Hc' _]; [discriminate|].
  split; [rewrite Hc; reflexivity|].
  split; [rewrite Hw; reflexivity|rewrite Hc'; reflexivity].
Defined.

(** X3.  [insert(w, f)] raises [word_count] by one when [w] was not
    stored and leaves it alone otherwise; [node_count] grows by at most
    the length of [w] and never shrinks. *)
Theorem insert_counters t w f :
  _total_words (insert t w f)
  = _total_words t + (if contains t w then 0 else 1) /\
  _total_nodes t <= _total_nodes (insert t w f) /\
  _total_nodes (insert t w f) <= _total_nodes t + Z.of_nat (length w).
Proof.
  rewrite contains_info. unfold insert.
  destruct (insert_walk (root t) w f) as [[r m] a] eqn:E.
  apply insert_walk_made in E as [Hm ->]. simpl. repeat split; lia.
Qed.

(** X4.  [insert] moves each counter by exactly the change of the tree:
    the distance between [node_count] and the number of nodes, and
    between [word_count] and the number of terminal nodes, stays as it
    was (so exact counters stay exact). *)
Theorem insert_keeps_counters_exact t w f :
  _total_nodes (insert t w f) - node_count (root (insert t w f))
  = _total_nodes t - node_count (root t) /\
  _total_words (insert t w f) - word_count (root (insert t w f))
  = _total_words t - word_count (root t).
Proof.
  unfold insert.
  destruct (insert_walk (root t) w f) as [[r m] a] eqn:E.
  apply insert_walk_counts in E as [Hn Hw]. simpl. lia.
Qed.

(** ** Writing the same word twice *)

Lemma set_set (V : Type) ch (v1 v2 : V) d :
  Dict.set ch v2 (Dict.set ch v1 d) = Dict.set ch v2 d.
Proof.
  induction d as [|[k y] d IH]; simpl.
  - now rewrite Ascii.eqb_refl.
  - destruct (Ascii.eqb_spec ch k) as [->|ne]; simpl.
    + now rewrite Ascii.eqb_refl.
    + destruct (Ascii.eqb_spec ch k); [contradiction|]. now rewrite IH.
Qed.

Lemma insert_walk_twice w f1 f2 :
  forall node n1 m1 a1 n2 m2 a2,
    insert_walk node w f1 = (n1, m1, a1) ->
    insert_walk n1 w f2 = (n2, m2, a2) ->
    insert_walk node w f2 = (n2, m1, a1) /\ m2 = 0 /\ a2 = 0.
Proof.
  induction w as [|ch rest IH]; intros node n1 m1 a1 n2 m2 a2; simpl.
  - intros [= <- <- <-]. simpl. intros [= <- <- <-]. auto.
  - destruct (insert_walk
                (match Dict.get ch (children node) with
                 | Some c => c | None => new_node end) rest f1)
      as [[c1 m'] a'] eqn:E1.
    destruct (insert_walk
                (match Dict.get ch (children node) with
                 | Some c => c | None => new_node end) rest f2)
      as [[c2 m''] a''] eqn:E2.
    destruct (Dict.get ch (children node)) as [c|] eqn:G;
      rewrite E1, E2; intros [= <- <- <-]; simpl;
      rewrite get_set_same;
      destruct (insert_walk c1 rest f2) as [[c3 m3] a3] eqn:E3;
      intros [= <- <- <-];
      destruct (IH _ _ _ _ _ _ _ E1 E3) as (H & -> & ->);
      rewrite E2 in H; injection H as -> -> ->;
      unfold set_children; simpl; rewrite set_set;
      (split; [reflexivity|split; [lia|reflexivity]]).
Qed.

(** X5.  A second [insert] of the same word overwrites the first: the
    index is the one that the second call alone would have produced. *)
Theorem insert_overwrites t w f1 f2 :
  insert (insert t w f1) w f2 = insert t w f2.
Proof.
  unfold insert.
  destruct (insert_walk (root t) w f1) as [[n1 m1] a1] eqn:E1. simpl.
  destruct (insert_walk n1 w f2) as [[n2 m2] a2] eqn:E2.
  destruct (insert_walk_twice w f1 f2 _ _ _ _ _ _ _ E1 E2) as (-> & -> & ->).
  f_equal; lia.
Qed.

(** ** [handle_load]: an index built by inserts only *)

Lemma insert_no_dead_branch t w f :
  no_dead_branch t -> no_dead_branch (insert t w f).
Proof.
  unfold no_dead_branch, insert. intros H. rewrite forallb_forall in H.
  pose proof (insert_walk_no_dead w f (root t) H) as N.
  destruct (insert_walk (root t) w f) as [[r m] a]. cbn [fst root] in *.
  apply no_dead_leaf_inv in N as [_ N]. apply forallb_forall. exact N.
Qed.

Lemma insert_wf t w f : wf t -> wf (insert t w f).
Proof.
  unfold wf, insert. intros W. pose proof (insert_walk_wf w f _ W) as H.
  destruct (insert_walk (root t) w f) as [[r m] a]. exact H.
Qed.

Lemma load_loop_invariants data :
  forall t0,
    wf t0 -> no_dead_branch t0 ->
    _total_nodes t0 = node_count (root t0) ->
    _total_words t0 = word_count (root t0) ->
    let t := fold_left (fun trie p => insert trie (fst p) (snd p)) data t0 in
    wf t /\ no_dead_branch t /\
    _total_nodes t = node_count (root t) /\
    _total_words t = word_count (root t).
Proof.
  induction data as [|[w f] data IH]; intros t0 W D Hn Hw; simpl; [auto|].
  assert (Hc : _total_nodes (insert t0 w f) = node_count (root (insert t0 w f))
               /\ _total_words (insert t0 w f)
                  = word_count (root (insert t0 w f))).
  { unfold insert. destruct (insert_walk (root t0) w f) as [[r m] a] eqn:E.
    apply insert_walk_counts in E as [En Ew]. simpl. lia. }
  apply IH; [now apply insert_wf|now apply insert_no_dead_branch| |];
    apply Hc.
Qed.

(** X6.  Whatever list is loaded, the index that [handle_load] builds has
    exact counters ([node_count] is the number of nodes, [word_count] the
    number of terminal nodes), unique keys in every children dict and no
    non-terminal leaf below the root. *)
Theorem handle_load_invariants data :
  wf (handle_load data) /\
  no_dead_branch (handle_load data) /\
  _total_nodes (handle_load data) = node_count (root (handle_load data)) /\
  _total_words (handle_load data) = word_count (root (handle_load data)).
Proof.
  unfold handle_load. apply load_loop_invariants; reflexivity.
Qed.

Lemma word_eq_dec (a b : word) : {a = b} + {a <> b}.
Proof. apply list_eq_dec, Ascii.ascii_dec. Qed.

Lemma load_loop_contains w data :
  forall t0,
    contains (fold_left (fun trie p => insert trie (fst p) (snd p)) data t0) w
    = true <->
    contains t0 w = true \/ In w (map fst data).
Proof.
  induction data as [|[w1 f1] data IH]; intros t0; simpl; [tauto|].
  rewrite IH, (contains_info (insert t0 w1 f1)).
  destruct (word_eq_dec w w1) as [->|ne].
  - rewrite insert_info_same. simpl. tauto.
  - rewrite insert_info_other by exact ne. rewrite <- contains_info.
    simpl. intuition congruence.
Qed.

Lemma contains_init w : contains Trie_init w = false.
Proof. now destruct w. Qed.

Lemma load_contains data w :
  contains (handle_load data) w = true <-> In w (map fst data).
Proof.
  unfold handle_load. rewrite load_loop_contains, contains_init.
  split; [intros [H|H]; [discriminate|exact H]|auto].
Qed.

Lemma load_wf data : wf (handle_load data).
Proof.
  unfold handle_load. apply load_loop_invariants; reflexivity.
Qed.

Lemma load_loop_info_other w data :
  forall t0,
    ~ In w (map fst data) ->
    word_info
      (root (fold_left (fun trie p => insert trie (fst p) (snd p)) data t0)) w
    = word_info (root t0) w.
Proof.
  induction data as [|[w1 f1] data IH]; intros t0 notin; simpl; [reflexivity|].
  simpl in notin. rewrite IH by tauto.
  apply insert_info_other. intros e. apply notin. now left.
Qed.

Lemma load_last_write d1 w f d2 :
  ~ In w (map fst d2) ->
  word_info (root (handle_load (d1 ++ (w, f) :: d2))) w = (true, f).
Proof.
  intros notin. unfold handle_load. rewrite fold_left_app. simpl.
  rewrite load_loop_info_other by exact notin.
  apply insert_info_same.
Qed.

(** X7.  After [handle_load] a word is stored exactly when it occurs in the
    loaded list, and its weight is that of its last occurrence. *)
Theorem handle_load_contains data w :
  (contains (handle_load data) w = true <-> In w (map fst data)) /\
  (forall d1 f d2,
      data = d1 ++ (w, f) :: d2 -> ~ In w (map fst d2) ->
      weight_at (handle_load data) w = Some f).
Proof.
  split; [apply load_contains|].
  intros d1 f d2 -> notin.
  pose proof (load_last_write d1 w f d2 notin) as H.
  apply word_info_true in H as (n & F & _ & e).
  unfold weight_at. rewrite F. simpl. now rewrite e.
Qed.

Lemma handle_load_contains_witness :
  let data := [(w_ "car", 5); (w_ "cat", 3); (w_ "car", 7)] in
  contains (handle_load data) (w_ "cat") = true /\
  weight_at (handle_load data) (w_ "car") = Some 7.
Proof.
  cbv zeta.
  destruct (handle_load_contains
              [(w_ "car", 5); (w_ "cat", 3); (w_ "car", 7)] (w_ "cat"))
    as [Hc _].
  destruct (handle_load_contains
              [(w_ "car", 5); (w_ "cat", 3); (w_ "car", 7)] (w_ "car"))
    as [_ Hw].
  split.
  - apply Hc. simpl. right. now left.
  - apply (Hw [(w_ "car", 5); (w_ "cat", 3)] 7 []); [reflexivity|].
    simpl. tauto.
Defined.

(** ** [items] and the stored words *)

Lemma items_spec t w f :
  wf t -> (In (w, f) (items t) <-> word_info (root t) w = (true, f)).
Proof.
  intros W. rewrite items_words_of, word_info_true. split.
  - intros i. apply (words_of_sound _ W) in i as (s & n & -> & F & T & e).
    simpl. eauto.
  - intros (n & F & T & <-). exact (words_of_complete w (root t) [] n F T).
Qed.

Lemma items_nodup t : wf t -> NoDup (items t).
Proof.
  intros W. apply (NoDup_map_inv fst). rewrite items_words_of.
  now apply words_of_nodup.
Qed.

(** X8.  Loading the pairs that [items] returns gives an index with the
    same pairs: [items] of the new index is a rearrangement of the list
    that was loaded. *)
Theorem items_load_round_trip t :
  wf t -> Permutation (items (handle_load (items t))) (items t).
Proof.
  intros W.
  pose proof (load_wf (items t)) as W2.
  assert (Hin : forall w f, In (w, f) (items t) ->
                            word_info (root (handle_load (items t))) w
                            = (true, f)).
  { intros w f i.
    pose proof (words_of_nodup (root t) W []) as nd.
    rewrite <- items_words_of in nd.
    apply in_split in i as (d1 & d2 & e). rewrite e.
    apply load_last_write. rewrite e, map_app in nd. simpl in nd.
    apply NoDup_remove_2 in nd. intros i. apply nd, in_or_app. now right. }
  apply NoDup_Permutation; [now apply items_nodup|now apply items_nodup|].
  intros [w f]. rewrite (items_spec _ w f W2). split.
  - intros H.
    assert (C : contains (handle_load (items t)) w = true)
      by now rewrite contains_info, H.
    apply load_contains in C.
    apply in_map_iff in C as ([w' f'] & e & i). simpl in e. subst w'.
    pose proof (Hin w f' i) as H'. rewrite H in H'.
    injection H' as ->. exact i.
  - apply Hin.
Qed.

Lemma items_load_round_trip_witness :
  let t := insert (insert (insert Trie_init (w_ "b") 1) (w_ "a") 2)
                  (w_ "ab") 3 in
  wf t /\ Permutation (items (handle_load (items t))) (items t).
Proof.
  cbv zeta.
  assert (W : wf (insert (insert (insert Trie_init (w_ "b") 1) (w_ "a") 2)
                         (w_ "ab") 3)) by reflexivity.
  split; [exact W|]. exact (items_load_round_trip _ W).
Defined.

(** X9.  After [insert(w, f)] the pairs of [items] are the pair [(w, f)]
    and the former pairs of every other word. *)
Theorem items_after_insert t w f w' f' :
  wf t ->
  (In (w', f') (items (insert t w f)) <->
   (w' = w /\ f' = f) \/ (w' <> w /\ In (w', f') (items t))).
Proof.
  intros W. rewrite (items_spec _ w' f' (insert_wf t w f W)).
  rewrite (items_spec _ w' f' W).
  destruct (word_eq_dec w' w) as [->|ne].
  - rewrite insert_info_same. split.
    + intros [= ->]. now left.
    + intros [[_ ->]|[ne _]]; [reflexivity|contradiction].
  - rewrite insert_info_other by exact ne. split; [auto|].
    intros [[e _]|[_ H]]; [contradiction|exact H].
Qed.

Lemma items_after_insert_witness :
  let t := insert Trie_init (w_ "car") 5 in
  wf t /\
  In (w_ "cat", 3) (items (insert t (w_ "cat") 3)) /\
  In (w_ "car", 5) (items (insert t (w_ "cat") 3)).
Proof.
  cbv zeta.
  assert (W : wf (insert Trie_init (w_ "car") 5)) by reflexivity.
  split; [exact W|]. split.
  - apply (items_after_insert _ (w_ "cat") 3 (w_ "cat") 3 W). now left.
  - apply (items_after_insert _ (w_ "cat") 3 (w_ "car") 5 W). right.
    split; [discriminate|]. now left.
Defined.

(** ** [remove] where its loop stops at once, and what it never does *)

Lemma remove_walk_inner w :
  forall inc node n,
    find node w = Some n -> is_word n = true -> children n <> [] ->
    exists node' pr,
      remove_walk inc node w = Some (node', pr, 0) /\
      pr && is_dead node' = false /\
      word_info node' w = (false, 0) /\
      (forall w', w' <> w -> word_info node' w' = word_info node w') /\
      node_count node' = node_count node.
Proof.
  induction w as [|ch rest IH]; intros inc node n; simpl.
  - intros [= <-] T ne. rewrite T.
    exists (mkNode (children node) false 0), true. repeat split.
    + unfold is_dead. simpl. now destruct (children node).
    + intros [|c r] nw; [congruence|reflexivity].
    + now rewrite !node_count_eq.
  - destruct (Dict.get ch (children node)) as [child|] eqn:G; [|discriminate].
    intros F T ne.
    destruct (IH (Some ch) child n F T ne)
      as (c' & pr & -> & Hp & Hw & Ho & Hn).
    rewrite Hp. do 2 eexists. split; [reflexivity|]. repeat split.
    + unfold word_info in *. simpl. now rewrite get_set_same.
    + intros [|k r] nw; [reflexivity|]. unfold word_info in *. simpl.
      destruct (Ascii.eqb_spec k ch) as [->|nk].
      * rewrite get_set_same, G. apply Ho. congruence.
      * now rewrite get_set_other.
    + rewrite !node_count_eq. cbn [children set_children].
      rewrite total_set_present with (x := child) by exact G. lia.
Qed.

(** X10.  Removing a stored word that another stored word extends only
    clears that word: nothing is pruned, [node_count] and the number of
    nodes stay, and every other word keeps its status and weight. *)
Theorem remove_inner_word t w c s :
  contains t w = true ->
  contains t (w ++ c :: s) = true ->
  fst (remove t w) = true /\
  _total_nodes (snd (remove t w)) = _total_nodes t /\
  node_count (root (snd (remove t w))) = node_count (root t) /\
  contains (snd (remove t w)) w = false /\
  forall w', w' <> w ->
             contains (snd (remove t w)) w' = contains t w' /\
             weight_of (snd (remove t w)) w' = weight_of t w'.
Proof.
  intros T Hext. rewrite contains_find in T, Hext. rewrite find_app in Hext.
  destruct (find (root t) w) as [n|] eqn:F; [|discriminate].
  assert (ne : children n <> []).
  { simpl in Hext. intros e. rewrite e in Hext. discriminate. }
  destruct (remove_walk_inner w None (root t) n F T ne)
    as (r & pr & R & _ & Hw & Ho & Hn).
  rewrite remove_unfold, R. cbn [fst snd root _total_nodes].
  split; [reflexivity|]. split; [lia|]. split; [exact Hn|]. split.
  - rewrite contains_info. cbn [root]. now rewrite Hw.
  - intros w' nw. rewrite !contains_info, !weight_of_info. cbn [root].
    now rewrite Ho.
Qed.

Lemma remove_inner_word_witness :
  let t := insert (insert Trie_init (w_ "ab") 1) (w_ "abc") 2 in
  remove t (w_ "ab")
  = (true,
     mkTrie (mkNode [("a"%char,
               mkNode [("b"%char,
                 mkNode [("c"%char, mkNode [] true 2)] false 0)] false 0)]
               false 0) 1 4) /\
  contains (snd (remove t (w_ "ab"))) (w_ "abc") = true.
Proof.
  cbv zeta.
  destruct (remove_inner_word
              (insert (insert Trie_init (w_ "ab") 1) (w_ "abc") 2)
              (w_ "ab") "c"%char [] eq_refl eq_refl) as (_ & _ & _ & _ & H).
  split; [reflexivity|].
  destruct (H (w_ "abc")) as [-> _]; [discriminate|reflexivity].
Defined.

Lemma remove_walk_no_new w :
  forall inc node node' pr d,
    wf_node node = true -> remove_walk inc node w = Some (node', pr, d) ->
    0 <= d /\
    forall s f, word_info node' s = (true, f) -> word_info node s = (true, f).
Proof.
  induction w as [|ch rest IH]; intros inc node node' pr d W; simpl.
  - destruct (is_word node); [|discriminate]. intros [= <- _ <-].
    split; [lia|]. intros [|c r] f; [discriminate|auto].
  - destruct (Dict.get ch (children node)) as [child|] eqn:G; [|discriminate].
    destruct (remove_walk (Some ch) child rest) as [[[c' p'] d']|] eqn:R;
      [|discriminate].
    destruct (IH _ _ _ _ _ (wf_get _ _ _ W G) R) as [Hd Hc].
    assert (Hset : forall s f,
      word_info (set_children node (Dict.set ch c' (children node))) s
      = (true, f) -> word_info node s = (true, f)).
    { intros [|k r] f; [auto|]. unfold word_info in *. simpl.
      destruct (Ascii.eqb_spec k ch) as [->|nk].
      - rewrite get_set_same, G. apply Hc.
      - now rewrite get_set_other. }
    destruct (p' && is_dead c').
    + destruct (mem_sym inc _) eqn:M; intros [= <- _ <-];
        (split; [lia|]); [|exact Hset].
      apply mem_sym_get in M as (i & x & -> & _).
      intros [|k r] f; [apply (Hset [])|].
      intros H. apply Hset. revert H. unfold word_info. simpl.
      destruct (Ascii.eqb_spec k i) as [->|nk].
      * rewrite get_del_same; [discriminate|].
        apply NoDup_keys_set. now apply wf_node_inv in W.
      * now rewrite get_del_other.
    + intros [= <- _ <-]. split; [lia|exact Hset].
Qed.

(** X11.  [remove] never adds anything: a word stored after the call was
    stored before it with the same weight, and neither the number of
    nodes nor [node_count] grows. *)
Theorem remove_adds_nothing t w w' :
  wf t ->
  (contains (snd (remove t w)) w' = true ->
   contains t w' = true /\
   weight_of (snd (remove t w)) w' = weight_of t w') /\
  node_count (root (snd (remove t w))) <= node_count (root t) /\
  _total_nodes (snd (remove t w)) <= _total_nodes t.
Proof.
  intros W. rewrite remove_unfold.
  destruct (remove_walk None (root t) w) as [[[r pr] d]|] eqn:R.
  - destruct (remove_walk_no_new w _ _ _ _ _ W R) as [Hd Hs].
    pose proof (remove_walk_nodes w _ _ _ _ _ R) as Hn.
    cbn [snd root _total_nodes]. split; [|lia].
    rewrite !contains_info, !weight_of_info. cbn [root].
    destruct (word_info r w') as [b f] eqn:E. simpl. intros ->.
    now rewrite (Hs _ _ E).
  - simpl. split; [auto|lia].
Qed.

Lemma remove_adds_nothing_witness :
  let t := insert (insert Trie_init (w_ "aa") 1) (w_ "ab") 2 in
  wf t /\
  contains (snd (remove t (w_ "ab"))) (w_ "aa") = false /\
  _total_nodes (snd (remove t (w_ "ab"))) <= _total_nodes t.
Proof.
  cbv zeta.
  assert (W : wf (insert (insert Trie_init (w_ "aa") 1) (w_ "ab") 2))
    by reflexivity.
  destruct (remove_adds_nothing _ (w_ "ab") (w_ "aa") W) as (_ & _ & H).
  split; [exact W|]. split; [reflexivity|exact H].
Defined.

(** ** What the heap of [complete] keeps and what it drops *)

Lemma word_le_trans a b c :
  word_ltb b a = false -> word_ltb c b = false -> word_ltb c a = false.
Proof.
  intros H1 H2. destruct (word_ltb c a) eqn:E; [|reflexivity].
  destruct (word_eq_dec b c) as [->|ne]; [congruence|].
  pose proof (word_ltb_total b c H2 ne) as H3.
  pose proof (word_ltb_trans b c a H3 E). congruence.
Qed.

Lemma item_ltb_false a b :
  item_ltb a b = false <->
  fst b <= fst a /\ (fst a = fst b -> word_ltb (snd a) (snd b) = false).
Proof.
  unfold item_ltb.
  rewrite orb_false_iff, andb_false_iff, Z.ltb_ge, Z.eqb_neq.
  split.
  - intros [H1 [H2|H2]]; split; auto. intros e. contradiction.
  - intros [H1 H2]. split; [exact H1|].
    destruct (Z.eq_dec (fst a) (fst b)); auto.
Qed.

Lemma item_le_trans x y z : item_le x y -> item_le y z -> item_le x z.
Proof.
  unfold item_le. rewrite !item_ltb_false. intros [H1 H2] [H3 H4].
  split; [lia|]. intros e.
  apply word_le_trans with (b := snd y); [apply H2|apply H4]; lia.
Qed.

Lemma item_ltb_total a b :
  item_ltb b a = false -> snd a <> snd b -> item_ltb a b = true.
Proof.
  rewrite item_ltb_false. intros [H1 H2] ne. unfold item_ltb.
  destruct (Z.ltb_spec (fst a) (fst b)) as [lt|ge]; [reflexivity|].
  assert (e : fst a = fst b) by lia. simpl.
  rewrite (proj2 (Z.eqb_eq _ _) e). simpl.
  apply word_ltb_total; auto.
Qed.

Lemma heappush_sorted heap it :
  StronglySorted item_le heap -> StronglySorted item_le (heapq.heappush heap it).
Proof.
  induction 1 as [|h rest S IH Hh]; simpl; [repeat constructor|].
  destruct (item_ltb it h) eqn:C.
  - assert (Hle : item_le it h) by now apply item_ltb_asym.
    constructor; [now constructor|].
    constructor; [exact Hle|].
    eapply Forall_impl; [|exact Hh]. intros y. now apply item_le_trans.
  - constructor; [exact IH|].
    apply Forall_forall. intros y i.
    apply (Permutation_in _ (heappush_perm rest it)) in i.
    destruct i as [<-|i]; [exact C|].
    rewrite Forall_forall in Hh. auto.
Qed.

Lemma admit_item_step k heap dropped it :
  StronglySorted item_le heap ->
  (forall x y, In x dropped -> In y heap -> item_le x y) ->
  (Z.of_nat (length heap) < k -> dropped = []) ->
  exists dropped1,
    StronglySorted item_le (admit_item k heap it) /\
    (forall x y, In x dropped1 -> In y (admit_item k heap it) -> item_le x y) /\
    (Z.of_nat (length (admit_item k heap it)) < k -> dropped1 = []) /\
    Permutation (admit_item k heap it ++ dropped1) (it :: heap ++ dropped).
Proof.
  intros S Hd Hroom. unfold admit_item.
  destruct (Z.ltb_spec (Z.of_nat (length heap)) k) as [lt|ge].
  - rewrite (Hroom lt). exists []. repeat split.
    + now apply heappush_sorted.
    + intros x y [].
    + rewrite !app_nil_r. apply heappush_perm.
  - destruct heap as [|h rest]; simpl.
    + exists (it :: dropped). repeat split.
      * constructor.
      * intros x y _ [].
      * simpl in ge. lia.
      * reflexivity.
    + inversion S as [|? ? S' Hh]; subst. rewrite Forall_forall in Hh.
      destruct (item_ltb h it) eqn:C.
      * exists (h :: dropped). repeat split.
        -- now apply heappush_sorted.
        -- intros x y ix iy.
           apply (Permutation_in _ (heappush_perm rest it)) in iy.
           assert (Hhy : item_le h y).
           { destruct iy as [<-|iy]; [now apply item_ltb_asym|auto]. }
           destruct ix as [<-|ix]; [exact Hhy|].
           apply item_le_trans with (y := h); [|exact Hhy].
           apply Hd; [exact ix|now left].
        -- rewrite (Permutation_length (heappush_perm rest it)).
           simpl in *. lia.
        -- rewrite heappush_perm. simpl.
           rewrite <- Permutation_middle. reflexivity.
      * exists (it :: dropped). repeat split.
        -- exact S.
        -- intros x y [<-|ix] iy; [|now apply Hd].
           destruct iy as [<-|iy]; [exact C|].
           apply item_le_trans with (y := h); [exact C|auto].
        -- simpl in *. lia.
        -- simpl. rewrite <- Permutation_middle. apply perm_swap.
Qed.

Lemma admit_all_top k l :
  forall heap dropped,
    StronglySorted item_le heap ->
    (forall x y, In x dropped -> In y heap -> item_le x y) ->
    (Z.of_nat (length heap) < k -> dropped = []) ->
    exists dropped',
      Permutation (fold_left (admit_item k) l heap ++ dropped')
                  (heap ++ dropped ++ l) /\
      forall x y, In x dropped' -> In y (fold_left (admit_item k) l heap) ->
                  item_le x y.
Proof.
  induction l as [|it l IH]; intros heap dropped S Hd Hroom; simpl.
  - exists dropped. rewrite app_nil_r. split; [reflexivity|exact Hd].
  - destruct (admit_item_step k heap dropped it S Hd Hroom)
      as (d1 & S1 & Hd1 & Hroom1 & P1).
    destruct (IH _ _ S1 Hd1 Hroom1) as (d' & P & Hd').
    exists d'. split; [|exact Hd'].
    rewrite P, app_assoc, P1. simpl.
    rewrite (app_assoc heap dropped (it :: l)).
    apply Permutation_middle.
Qed.

Lemma admit_all_count k l :
  forall heap,
    Z.of_nat (length (fold_left (admit_item k) l heap))
    = Z.max (Z.of_nat (length heap))
            (Z.min (Z.of_nat (length heap) + Z.of_nat (length l)) k).
Proof.
  induction l as [|it l IH]; intros heap; simpl fold_left; simpl length.
  - lia.
  - rewrite IH. unfold admit_item.
    destruct (Z.ltb_spec (Z.of_nat (length heap)) k) as [lt|ge].
    + rewrite (Permutation_length (heappush_perm heap it)). simpl length.
      lia.
    + rewrite heappushpop_length. lia.
Qed.

Lemma complete_heap_split t p node k :
  find (root t) p = Some node ->
  exists dropped,
    Permutation (dfs k node p [] ++ dropped) (words_in node p) /\
    forall x y, In x dropped -> In y (dfs k node p []) -> item_le x y.
Proof.
  intros _. rewrite dfs_words_in.
  destruct (admit_all_top k (words_in node p) [] []) as (d & P & H).
  - constructor.
  - intros x y [].
  - reflexivity.
  - exists d. split; [exact P|exact H].
Qed.

Lemma matches_perm t p node ws :
  wf t -> find (root t) p = Some node -> NoDup ws ->
  (forall w, In w ws <-> has_prefix p w = true /\ contains t w = true) ->
  Permutation (map snd (words_in node p)) ws.
Proof.
  intros W F nd Hws.
  apply NoDup_Permutation; [|exact nd|].
  - apply words_in_nodup. exact (wf_find p _ _ W F).
  - intros w. rewrite Hws. split.
    + intros i. apply in_map_iff in i as ([f w'] & e & i).
      simpl in e. subst w'.
      apply words_in_sound in i as (s & n & -> & Fs & T & _).
      rewrite has_prefix_app, contains_find, find_app, F, Fs. auto.
    + intros [Hp Hc]. apply has_prefix_split in Hp as [s ->].
      rewrite contains_find, find_app, F in Hc.
      destruct (find node s) as [n|] eqn:Fs; [|discriminate].
      apply in_map_iff. exists (freq n, p ++ s). split; [reflexivity|].
      now apply words_in_complete.
Qed.

(** X12.  For every [k], [complete(p, k)] returns no word twice, and of
    any two returned words the earlier one has the higher weight or, at
    equal weight, is the lexically smaller. *)
Theorem complete_sorted_without_repeats t p k :
  wf t ->
  NoDup (complete t p k) /\
  StronglySorted (ranks_before t) (complete t p k).
Proof.
  intros W. unfold complete. rewrite trace_find.
  destruct (find (root t) p) as [node|] eqn:F; [|split; constructor].
  destruct (complete_heap_split t p node k F) as (d & P & _).
  pose proof (words_in_nodup node (wf_find p _ _ W F) p) as ndL.
  assert (ndS : NoDup (map snd (sorted_by_rank (dfs k node p [])))).
  { apply (Permutation_NoDup
             (Permutation_map snd (Permutation_sym (sorted_by_rank_perm _)))).
    apply (Permutation_NoDup (Permutation_map snd (Permutation_sym P))) in ndL.
    rewrite map_app in ndL. now apply NoDup_app_remove_r in ndL. }
  split; [exact ndS|].
  apply StronglySorted_map_In with (R := item_before).
  - intros x y ix iy Hxy.
    destruct (complete_entries t p node k x F ix) as (_ & _ & ex).
    destruct (complete_entries t p node k y F iy) as (_ & _ & ey).
    unfold ranks_before. rewrite ex, ey. exact Hxy.
  - apply sorted_strict; [apply sorted_by_rank_sorted|exact ndS].
Qed.

Lemma complete_sorted_without_repeats_witness :
  let t := insert (insert (insert Trie_init (w_ "cat") 5) (w_ "car") 5)
                  (w_ "cart") 3 in
  wf t /\
  NoDup (complete t (w_ "ca") 2) /\
  StronglySorted (ranks_before t) (complete t (w_ "ca") 2).
Proof.
  cbv zeta.
  assert (W : wf (insert (insert (insert Trie_init (w_ "cat") 5)
                                 (w_ "car") 5) (w_ "cart") 3))
    by reflexivity.
  split; [exact W|].
  exact (complete_sorted_without_repeats _ (w_ "ca") 2 W).
Defined.

(** X13.  [complete(p, k)] returns as many words as there are stored words
    with prefix [p], up to [k]: the smaller of the two numbers, and none
    for a negative [k]. *)
Theorem complete_length t p k ws :
  wf t ->
  NoDup ws ->
  (forall w, In w ws <-> has_prefix p w = true /\ contains t w = true) ->
  Z.of_nat (length (complete t p k))
  = Z.min (Z.of_nat (length ws)) (Z.max 0 k).
Proof.
  intros W nd Hws. unfold complete. rewrite trace_find.
  destruct (find (root t) p) as [node|] eqn:F.
  - pose proof (matches_perm t p node ws W F nd Hws) as P.
    apply Permutation_length in P. rewrite length_map in P.
    rewrite length_map, (Permutation_length (sorted_by_rank_perm _)).
    assert (P' : @length item (words_in node p) = length ws) by exact P.
    rewrite dfs_words_in, admit_all_count, P'. simpl length. lia.
  - assert (E : ws = []).
    { destruct ws as [|w ws']; [reflexivity|]. exfalso.
      destruct (proj1 (Hws w) (or_introl eq_refl)) as [Hp Hc].
      apply has_prefix_split in Hp as [s ->].
      rewrite contains_find, find_app, F in Hc. discriminate. }
    subst ws. simpl. lia.
Qed.

(** X14.  The words that [complete(p, k)] leaves out are the least ones in
    the order of the heap entries: a stored word with prefix [p] that is
    not returned has a lower weight than every returned word, or the same
    weight and a lexically smaller spelling. *)
Theorem complete_keeps_greatest t p k w w' :
  In w' (complete t p k) ->
  has_prefix p w = true -> contains t w = true ->
  ~ In w (complete t p k) ->
  item_ltb (weight_of t w, w) (weight_of t w', w') = true.
Proof.
  unfold complete. rewrite trace_find.
  destruct (find (root t) p) as [node|] eqn:F; [|intros []].
  intros i' Hp Hc notin.
  destruct (complete_heap_split t p node k F) as (d & P & Hd).
  apply in_map_iff in i' as ([f' x'] & e & i'). simpl in e. subst x'.
  destruct (complete_entries t p node k _ F i') as (_ & _ & e').
  simpl in e'. rewrite e'.
  apply (Permutation_in _ (sorted_by_rank_perm _)) in i'.
  apply has_prefix_split in Hp as [s ->].
  rewrite contains_find in Hc. unfold weight_of.
  rewrite find_app, F in *.
  destruct (find node s) as [n|] eqn:Fs; [|discriminate].
  pose proof (words_in_complete s node p n Fs Hc) as i.
  apply (Permutation_in _ (Permutation_sym P)) in i.
  apply in_app_or in i as [i|i].
  - exfalso. apply notin. apply in_map_iff. exists (freq n, p ++ s).
    split; [reflexivity|].
    now apply (Permutation_in _ (Permutation_sym (sorted_by_rank_perm _))).
  - apply item_ltb_total; [exact (Hd _ _ i i')|].
    simpl. intros e. apply notin. rewrite e.
    apply in_map_iff. exists (f', w'). split; [reflexivity|].
    now apply (Permutation_in _ (Permutation_sym (sorted_by_rank_perm _))).
Qed.

Lemma complete_length_witness :
  let data := [(w_ "car", 5); (w_ "cat", 5); (w_ "cart", 3)] in
  Z.of_nat (length (complete (handle_load data) [] 2)) = 2 /\
  Z.of_nat (length (complete (handle_load data) [] 7)) = 3 /\
  Z.of_nat (length (complete (handle_load data) [] (-1))) = 0.
Proof.
  cbv zeta.
  assert (H : forall k,
    Z.of_nat (length (complete
      (handle_load [(w_ "car", 5); (w_ "cat", 5); (w_ "cart", 3)]) [] k))
    = Z.min 3 (Z.max 0 k)).
  { intros k.
    apply (complete_length
             (handle_load [(w_ "car", 5); (w_ "cat", 5); (w_ "cart", 3)])
             [] k [w_ "car"; w_ "cat"; w_ "cart"]).
    - reflexivity.
    - repeat constructor; simpl; intros H'; intuition discriminate.
    - intros w. rewrite load_contains. simpl. tauto. }
  split; [exact (H 2)|]. split; [exact (H 7)|exact (H (-1))].
Defined.

Lemma complete_keeps_greatest_witness :
  let t := handle_load [(w_ "car", 5); (w_ "cat", 5); (w_ "cart", 3)] in
  complete t [] 2 = [w_ "car"; w_ "cat"] /\
  item_ltb (weight_of t (w_ "cart"), w_ "cart")
           (weight_of t (w_ "car"), w_ "car") = true.
Proof.
  cbv zeta. split; [reflexivity|].
  apply (complete_keeps_greatest
           (handle_load [(w_ "car", 5); (w_ "cat", 5); (w_ "cart", 3)])
           [] 2 (w_ "cart") (w_ "car")).
  - vm_compute. now left.
  - reflexivity.
  - reflexivity.
  - vm_compute. intros [H|[H|[]]]; discriminate.
Defined.

(** ** The height that [stats] reports *)

Lemma height_unfold node :
  height node =
  match children node with
  | [] => 0
  | (_, c) :: rest =>
      1 + fold_left Z.max (map (fun p => height (snd p)) rest) (height c)
  end.
Proof. now destruct node as [[|[k c] rest] iw f]. Qed.

Lemma fold_max_ge_init l : forall a, a <= fold_left Z.max l a.
Proof.
  induction l as [|x l IH]; intros a; simpl; [lia|].
  specialize (IH (Z.max a x)). lia.
Qed.

Lemma fold_max_ge_in l : forall a x, In x l -> x <= fold_left Z.max l a.
Proof.
  induction l as [|y l IH]; intros a x; simpl; [tauto|].
  intros [->|i]; [|auto].
  pose proof (fold_max_ge_init l (Z.max a x)). lia.
Qed.

Lemma fold_max_attained l :
  forall a, fold_left Z.max l a = a \/ In (fold_left Z.max l a) l.
Proof.
  induction l as [|y l IH]; intros a; simpl; [auto|].
  destruct (IH (Z.max a y)) as [e|i]; [|auto].
  rewrite e. destruct (Z.max_spec a y) as [[_ ->]|[_ ->]]; auto.
Qed.

Lemma height_child node ch c :
  In (ch, c) (children node) -> 1 + height c <= height node.
Proof.
  rewrite (height_unfold node).
  destruct (children node) as [|[k c0] rest]; [intros []|].
  intros [[= _ ->]|i].
  - pose proof (fold_max_ge_init (map (fun p => height (snd p)) rest)
                                 (height c)). lia.
  - pose proof (fold_max_ge_in (map (fun p => height (snd p)) rest)
                               (height c0) (height c)) as H.
    assert (In (height c) (map (fun p => height (snd p)) rest)).
    { apply in_map_iff. now exists (ch, c). }
    specialize (H H0). lia.
Qed.

Lemma height_nonneg node : 0 <= height node.
Proof.
  induction node as [cs iw f IH] using TrieNode_rect_children.
  rewrite height_unfold. cbn [children].
  destruct cs as [|[k c] rest]; [lia|].
  inversion IH as [|? ? Hc _]; subst. simpl in Hc.
  pose proof (fold_max_ge_init (map (fun p => height (snd p)) rest)
                               (height c)). lia.
Qed.

Lemma find_length_height w :
  forall node n, find node w = Some n ->
                 Z.of_nat (length w) <= height node.
Proof.
  induction w as [|ch rest IH]; intros node n; simpl length.
  - intros _. apply height_nonneg.
  - simpl. destruct (Dict.get ch (children node)) as [c|] eqn:G;
      [|discriminate].
    intros F. specialize (IH _ _ F).
    pose proof (height_child node ch c (get_In _ _ _ _ G)). lia.
Qed.

(** X15.  No text that traces to a node, and so no stored word, is longer
    than the height that [stats] reports. *)
Theorem height_bounds_words t w :
  fst (_trace t w) <> None ->
  Z.of_nat (length w) <= snd (fst (stats t)).
Proof.
  rewrite trace_find. simpl.
  destruct (find (root t) w) as [n|] eqn:F; [|congruence].
  intros _. exact (find_length_height w _ _ F).
Qed.

Lemma height_bounds_words_witness :
  let t := insert (insert Trie_init (w_ "a") 1) (w_ "abc") 1 in
  stats t = (2, 3, 4) /\
  Z.of_nat (length (w_ "ab")) <= snd (fst (stats t)).
Proof.
  cbv zeta. split; [reflexivity|].
  apply (height_bounds_words
           (insert (insert Trie_init (w_ "a") 1) (w_ "abc") 1) (w_ "ab")).
  discriminate.
Defined.

Lemma height_attained node :
  wf_node node = true -> no_dead_leaf node = true ->
  exists w n, find node w = Some n /\ is_word n = true /\
              Z.of_nat (length w) = height node.
Proof.
  induction node as [cs iw f IH] using TrieNode_rect_children.
  intros W D. apply wf_node_inv in W as [nd W].
  apply no_dead_leaf_inv in D as [Dn D]. cbn [children] in *.
  rewrite Forall_forall in IH. rewrite height_unfold. cbn [children].
  destruct cs as [|[k c0] rest].
  - exists [], (mkNode [] iw f). unfold is_dead in Dn. simpl in *.
    destruct iw; [auto|discriminate].
  - assert (Hmax : exists ch c,
      In (ch, c) ((k, c0) :: rest) /\
      fold_left Z.max (map (fun p => height (snd p)) rest) (height c0)
      = height c).
    { destruct (fold_max_attained (map (fun p => height (snd p)) rest)
                                  (height c0)) as [e|i].
      - exists k, c0. split; [now left|exact e].
      - apply in_map_iff in i as ([ch c] & e & i).
        exists ch, c. split; [now right|]. now rewrite <- e. }
    destruct Hmax as (ch & c & ic & e). rewrite e.
    destruct (IH _ ic (W _ ic) (D _ ic)) as (w & n & F & T & Hl).
    exists (ch :: w), n. split; [|split; [exact T|]].
    + cbn [find children]. now rewrite (In_get _ _ _ _ nd ic).
    + simpl length. cbn [snd] in Hl. lia.
Qed.

(** X16.  When no node is a non-terminal leaf, the height that [stats]
    reports is the length of a stored word, hence of a longest one. *)
Theorem height_is_longest_word t :
  wf t -> no_dead_leaf (root t) = true ->
  exists w, contains t w = true /\
            Z.of_nat (length w) = snd (fst (stats t)).
Proof.
  intros W D. destruct (height_attained (root t) W D) as (w & n & F & T & e).
  exists w. rewrite contains_find, F. split; [exact T|exact e].
Qed.

Lemma height_is_longest_word_witness :
  let t := insert (insert Trie_init (w_ "a") 1) (w_ "abc") 1 in
  wf t /\ no_dead_leaf (root t) = true /\
  exists w, contains t w = true /\ Z.of_nat (length w) = 3.
Proof.
  cbv zeta.
  assert (W : wf (insert (insert Trie_init (w_ "a") 1) (w_ "abc") 1))
    by reflexivity.
  split; [exact W|]. split; [reflexivity|].
  exact (height_is_longest_word _ W eq_refl).
Defined.

(** ** The path of [_trace] *)

Lemma trace_loop_nodes text :
  forall node n p,
    trace_loop node [] text = (Some n, p) ->
    length p = length text /\
    map snd p = map Some text /\
    forall i x s, nth_error p i = Some (x, s) ->
                  find node (firstn (S i) text) = Some x.
Proof.
  induction text as [|ch rest IH]; intros node n p.
  - simpl. intros [= _ <-]. repeat split. intros [|i] x s; discriminate.
  - cbn [trace_loop].
    destruct (Dict.get ch (children node)) as [nxt|] eqn:G; [|discriminate].
    rewrite trace_loop_path.
    destruct (trace_loop nxt [] rest) as [[m|] p'] eqn:E; [|discriminate].
    intros [= _ <-]. destruct (IH _ _ _ E) as (Hl & Hs & Hn).
    cbn [app length map snd]. rewrite Hl, Hs. repeat split.
    intros [|i] x s; cbn [nth_error firstn find].
    + intros [= <- _]. rewrite G. now destruct rest.
    + intros H. rewrite G. exact (Hn _ _ _ H).
Qed.

(** X17.  When [_trace] fails its path is empty; when it finds a node the
    path has one entry per symbol after the root's, the symbols spell the
    text, and the entry at index [i] holds the node that [_trace] reaches
    for the first [i] symbols. *)
Theorem trace_path t text :
  (fst (_trace t text) = None -> snd (_trace t text) = []) /\
  (forall n, fst (_trace t text) = Some n ->
     length (snd (_trace t text)) = S (length text) /\
     map snd (snd (_trace t text)) = None :: map Some text /\
     forall i x s, nth_error (snd (_trace t text)) i = Some (x, s) ->
                   fst (_trace t (firstn i text)) = Some x).
Proof.
  unfold _trace at 1 2 3 4 5 6. rewrite trace_loop_path.
  destruct (trace_loop (root t) [] text) as [[m|] p] eqn:E; cbn [fst snd].
  - split; [discriminate|]. intros n _.
    destruct (trace_loop_nodes text _ _ _ E) as (Hl & Hs & Hn).
    cbn [app length map snd]. rewrite Hl, Hs. repeat split.
    intros [|i] x s; cbn [nth_error]; rewrite trace_find.
    + now intros [= <- _].
    + intros H. exact (Hn _ _ _ H).
  - split; [reflexivity|discriminate].
Qed.

Lemma trace_path_witness :
  let t := insert Trie_init (w_ "ab") 1 in
  map snd (snd (_trace t (w_ "ab")))
  = [None; Some "a"%char; Some "b"%char] /\
  snd (_trace t (w_ "ax")) = [].
Proof.
  cbv zeta.
  destruct (trace_path (insert Trie_init (w_ "ab") 1) (w_ "ab")) as [_ H1].
  destruct (trace_path (insert Trie_init (w_ "ab") 1) (w_ "ax")) as [H2 _].
  split.
  - destruct (H1 _ eq_refl) as (_ & Hs & _). exact Hs.
  - apply H2. reflexivity.
Defined.

(** ** What [stats] reports after [handle_load] *)

Lemma items_words t w :
  wf t -> (In w (map fst (items t)) <-> contains t w = true).
Proof.
  intros W. rewrite contains_info. split.
  - intros i. apply in_map_iff in i as ([w' f] & e & i). simpl in e. subst w'.
    apply (items_spec t w f W) in i. now rewrite i.
  - destruct (word_info (root t) w) as [b f] eqn:E. simpl. intros ->.
    apply in_map_iff. exists (w, f). split; [reflexivity|].
    now apply items_spec.
Qed.

Lemma insert_root_no_dead_leaf t w f :
  no_dead_branch t -> no_dead_leaf (root (insert t w f)) = true.
Proof.
  unfold no_dead_branch, insert. intros H. rewrite forallb_forall in H.
  pose proof (insert_walk_no_dead w f (root t) H) as N.
  destruct (insert_walk (root t) w f) as [[r m] a]. exact N.
Qed.

Lemma root_no_dead_branch t :
  no_dead_leaf (root t) = true -> no_dead_branch t.
Proof.
  intros N. apply no_dead_leaf_inv in N as [_ N].
  apply forallb_forall. exact N.
Qed.

Lemma load_loop_no_dead_leaf data :
  forall t0,
    no_dead_leaf (root t0) = true ->
    no_dead_leaf
      (root (fold_left (fun trie p => insert trie (fst p) (snd p)) data t0))
    = true.
Proof.
  induction data as [|[w f] data IH]; intros t0 N; simpl; [exact N|].
  apply IH. now apply insert_root_no_dead_leaf, root_no_dead_branch.
Qed.

Lemma list_max_bound l (h : Z) :
  0 <= h -> (forall x, In x l -> Z.of_nat x <= h) ->
  Z.of_nat (list_max l) <= h.
Proof.
  intros H0. induction l as [|x l IH]; intros H; simpl; [exact H0|].
  rewrite Nat2Z.inj_max. apply Z.max_lub.
  - apply H. now left.
  - apply IH. intros y i. apply H. now right.
Qed.

Lemma list_max_In l x : In x l -> (x <= list_max l)%nat.
Proof.
  induction l as [|y l IH]; simpl; [tauto|].
  intros [->|i]; [lia|]. specialize (IH i). lia.
Qed.

(** X18.  After [handle_load], [stats] reports the number of distinct
    words of the loaded list and the length of its longest word. *)
Theorem handle_load_stats data :
  fst (fst (stats (handle_load data)))
  = Z.of_nat (length (nodup word_eq_dec (map fst data))) /\
  snd (fst (stats (handle_load data)))
  = Z.of_nat (list_max (map (fun p => length (fst p)) data)).
Proof.
  pose proof (load_wf data) as W.
  cbn [stats fst snd]. split.
  - assert (Hw : _total_words (handle_load data)
                 = word_count (root (handle_load data))).
    { unfold handle_load. apply load_loop_invariants; reflexivity. }
    rewrite Hw, <- (words_of_length _ []), <- items_words_of.
    rewrite <- (length_map fst). f_equal. apply Permutation_length.
    apply NoDup_Permutation.
    + rewrite items_words_of. now apply words_of_nodup.
    + apply NoDup_nodup.
    + intros w. rewrite (items_words _ w W), load_contains, nodup_In.
      reflexivity.
  - apply Z.le_antisymm.
    + destruct data as [|[w0 f0] data']; [reflexivity|].
      set (data := (w0, f0) :: data') in *.
      assert (N : no_dead_leaf (root (handle_load data)) = true).
      { unfold handle_load, data. simpl. apply load_loop_no_dead_leaf.
        now apply insert_root_no_dead_leaf. }
      destruct (height_attained _ W N) as (w & n & F & T & <-).
      assert (C : contains (handle_load data) w = true)
        by now rewrite contains_find, F.
      apply load_contains in C. apply Nat2Z.inj_le, list_max_In.
      apply in_map_iff in C as (p & <- & i).
      apply in_map_iff. now exists p.
    + apply list_max_bound; [apply height_nonneg|].
      intros x i. apply in_map_iff in i as ([w f] & <- & i). simpl.
      assert (C : contains (handle_load data) w = true).
      { apply load_contains. apply in_map_iff. now exists (w, f). }
      rewrite contains_find in C.
      destruct (find (root (handle_load data)) w) as [n|] eqn:F;
        [|discriminate].
      exact (find_length_height w _ _ F).
Qed.

(** ** The first completion *)

(** X19.  The first word that [complete(p, k)] returns has the highest
    weight of all stored words with prefix [p]. *)
Theorem complete_first_has_top_weight t p k w1 rest w :
  wf t ->
  complete t p k = w1 :: rest ->
  has_prefix p w = true -> contains t w = true ->
  weight_of t w <= weight_of t w1.
Proof.
  intros W. unfold complete. rewrite trace_find.
  destruct (find (root t) p) as [node|] eqn:F; [|discriminate].
  intros E Hp Hc.
  destruct (complete_heap_split t p node k F) as (d & P & Hd).
  pose proof (words_in_nodup node (wf_find p _ _ W F) p) as ndL.
  assert (ndS : NoDup (map snd (sorted_by_rank (dfs k node p [])))).
  { apply (Permutation_NoDup
             (Permutation_map snd (Permutation_sym (sorted_by_rank_perm _)))).
    apply (Permutation_NoDup (Permutation_map snd (Permutation_sym P))) in ndL.
    rewrite map_app in ndL. now apply NoDup_app_remove_r in ndL. }
  pose proof (sorted_strict _ (sorted_by_rank_sorted (dfs k node p [])) ndS)
    as S.
  assert (Hall : forall x, In x (sorted_by_rank (dfs k node p [])) ->
                           weight_of t (snd x) = fst x).
  { intros x i. now destruct (complete_entries t p node k x F i). }
  destruct (sorted_by_rank (dfs k node p [])) as [|x1 xs] eqn:Es;
    [discriminate|].
  simpl in E. injection E as <- _.
  rewrite (Hall x1 (or_introl eq_refl)).
  apply has_prefix_split in Hp as [s ->].
  rewrite contains_find in Hc. unfold weight_of.
  rewrite find_app, F in *.
  destruct (find node s) as [n|] eqn:Fs; [|discriminate].
  pose proof (words_in_complete s node p n Fs Hc) as i.
  apply (Permutation_in _ (Permutation_sym P)) in i.
  assert (i1 : In x1 (dfs k node p [])).
  { apply (Permutation_in _ (sorted_by_rank_perm _)).
    rewrite Es. now left. }
  apply in_app_or in i as [i|i].
  - apply (Permutation_in _ (Permutation_sym (sorted_by_rank_perm _))) in i.
    rewrite Es in i. destruct i as [->|i]; [simpl; lia|].
    inversion S as [|? ? _ Hx]; subst. rewrite Forall_forall in Hx.
    destruct (Hx _ i) as [H|[H _]]; simpl in H; lia.
  - pose proof (Hd _ _ i i1) as H. apply item_ltb_false in H as [H _].
    exact H.
Qed.

Lemma complete_first_has_top_weight_witness :
  let t := handle_load [(w_ "car", 5); (w_ "cat", 7); (w_ "cart", 3)] in
  wf t /\
  complete t (w_ "ca") 1 = [w_ "cat"] /\
  weight_of t (w_ "car") <= weight_of t (w_ "cat").
Proof.
  cbv zeta.
  assert (W : wf (handle_load
                    [(w_ "car", 5); (w_ "cat", 7); (w_ "cart", 3)]))
    by reflexivity.
  split; [exact W|]. split; [reflexivity|].
  exact (complete_first_has_top_weight _ (w_ "ca") 1 (w_ "cat") []
           (w_ "car") W eq_refl eq_refl eq_refl).
Defined.

(** ** How much [remove] can prune *)

Lemma remove_walk_decrements w :
  forall inc node node' pr d,
    remove_walk inc node w = Some (node', pr, d) ->
    0 <= d <= Z.of_nat (length w) /\
    (inc = None -> d <= Z.max 0 (Z.of_nat (length w) - 1)).
Proof.
  induction w as [|ch rest IH]; intros inc node node' pr d; simpl remove_walk.
  - destruct (is_word node); [|discriminate]. intros [= _ _ <-].
    simpl. lia.
  - destruct (Dict.get ch (children node)) as [child|]; [|discriminate].
    destruct (remove_walk (Some ch) child rest) as [[[c' p'] d']|] eqn:R;
      [|discriminate].
    destruct (IH _ _ _ _ _ R) as [Hd _]. simpl length.
    destruct (p' && is_dead c').
    + destruct (mem_sym inc _) eqn:M; intros [= _ _ <-].
      * split; [lia|]. intros ->. discriminate.
      * split; lia.
    + intros [= _ _ <-]. split; lia.
Qed.

(** X20.  [remove(w)] lowers [node_count] by at most the length of [w]
    minus one; for the empty word and for a word of one symbol it never
    changes [node_count]. *)
Theorem remove_prunes_at_most t w :
  _total_nodes t - Z.max 0 (Z.of_nat (length w) - 1)
  <= _total_nodes (snd (remove t w)) /\
  _total_nodes (snd (remove t w)) <= _total_nodes t.
Proof.
  rewrite remove_unfold.
  destruct (remove_walk None (root t) w) as [[[r pr] d]|] eqn:R.
  - destruct (remove_walk_decrements w _ _ _ _ _ R) as [Hd Hn].
    specialize (Hn eq_refl). simpl. lia.
  - simpl. lia.
Qed.
